(** * ApiChecker: a shallow embedding of the probe runner

    The repository holds two variants of the same command-line utility
    (both named [main.go]).  Each variant launches [numChecks] goroutines
    that perform one HTTP GET, sends one [CheckResult] per probe into a
    buffered channel, and reports a success percentage and a JSON file.

    - [V1] is the variant whose [runTests] polls an [os.Signal] channel
      and reports from inside [runTests].
    - [V2] is the variant whose [runTests] polls [ctx.Done()], returns a
      [TestResult], and whose [main] reports.

    Goroutines are modelled by an interleaving semantics: a state holds the
    program point of the orchestrating goroutine, the program point of every
    launched probe, the channel, the wait-group counter and the cancellation
    flag; one scheduler action runs one statement of one goroutine. *)

From Stdlib Require Import ZArith Lia Bool String Ascii Floats Uint63 DecimalString.
From stdpp Require Import base list.

(** ** Data model *)

(** [type CheckResult struct { Success bool `json:"success"` }] *)
Record CheckResult := { Success : bool }.

(** [type TestResult struct { Results []CheckResult `json:"results"` }] *)
Record TestResult := { Results : list CheckResult }.

(** What [http.Get] hands back: an error, or a response with its status.
    A call is taken to return; when it does is up to the scheduler. *)
Inductive HttpOutcome :=
| TransportErr
| Response (StatusCode : Z).

(** [http.StatusOK] *)
Definition StatusOK : Z := 200.

(** The state of a response body ([resp.Body]). *)
Inductive Body := NoBody | BodyOpen | BodyClosed.

(** ** Buffered channels of [CheckResult] *)

Module Channel.

Record chan := { buf : list CheckResult; cap : Z; closed : bool }.

(** [make(chan CheckResult, n)] *)
Definition make (n : Z) : chan := {| buf := []; cap := n; closed := false |}.

Inductive send_result :=
| SendOk (c : chan)
| SendBlocks
| SendPanics.

(** [c <- v]: panics on a closed channel, blocks on a full buffer. *)
Definition send (v : CheckResult) (c : chan) : send_result :=
  if closed c then SendPanics
  else if (Z.of_nat (length (buf c)) <? cap c)%Z
       then SendOk {| buf := buf c ++ [v]; cap := cap c; closed := closed c |}
       else SendBlocks.

(** [close(c)]: [None] is the panic of closing a closed channel. *)
Definition close (c : chan) : option chan :=
  if closed c then None
  else Some {| buf := buf c; cap := cap c; closed := true |}.

Inductive recv_result :=
| RecvOk (v : CheckResult) (c : chan)
| RecvClosed
| RecvBlocks.

(** [v, ok := <-c] as used by [for v := range c]. *)
Definition recv (c : chan) : recv_result :=
  match buf c with
  | v :: rest => RecvOk v {| buf := rest; cap := cap c; closed := closed c |}
  | [] => if closed c then RecvClosed else RecvBlocks
  end.

End Channel.

(** ** Executions of a transition system *)

Section Exec.
Context {State Action : Type}.
Variable step : State -> Action -> option State.

(** Runs a schedule; [None] when some action of it is not enabled. *)
Fixpoint exec (s : State) (sched : list Action) : option State :=
  match sched with
  | [] => Some s
  | a :: rest =>
      match step s a with
      | Some s' => exec s' rest
      | None => None
      end
  end.

Lemma exec_app s l1 l2 :
  exec s (l1 ++ l2) =
  match exec s l1 with Some s' => exec s' l2 | None => None end.
Proof.
  revert s. induction l1 as [|a l1 IH]; intros s; simpl; [done|].
  destruct (step s a); auto.
Qed.

Lemma exec_invariant (I : State -> Prop) (ok : Action -> Prop) :
  (forall s a s', I s -> ok a -> step s a = Some s' -> I s') ->
  forall sched s s', I s -> Forall ok sched -> exec s sched = Some s' -> I s'.
Proof.
  intros Hstep sched. induction sched as [|a rest IH]; intros s s' HI Hok He;
    simpl in He.
  - inversion He; subst; done.
  - inversion Hok; subst. destruct (step s a) as [s1|] eqn:E; [|done].
    apply (IH s1 s'); eauto.
Qed.

Lemma exec_measure (I : State -> Prop) (ok : Action -> Prop) (mu : State -> nat) :
  (forall s a s', I s -> ok a -> step s a = Some s' -> I s') ->
  (forall s a s', I s -> ok a -> step s a = Some s' -> (mu s' < mu s)%nat) ->
  forall sched s s', I s -> Forall ok sched -> exec s sched = Some s' ->
    (length sched + mu s' <= mu s)%nat.
Proof.
  intros Hinv Hdec sched. induction sched as [|a rest IH]; intros s s' HI Hok He;
    simpl in He.
  - inversion He; subst. simpl. lia.
  - inversion Hok; subst. destruct (step s a) as [s1|] eqn:E; [|done].
    specialize (Hdec _ _ _ HI H1 E).
    specialize (IH s1 s' (Hinv _ _ _ HI H1 E) H2 He). simpl. lia.
Qed.

End Exec.

(** ** Sums over the launched probes, by launch index *)

Section Isum.
Context {A : Type}.

Fixpoint isum (f : nat -> A -> nat) (k : nat) (l : list A) : nat :=
  match l with
  | [] => 0%nat
  | p :: l' => (f k p + isum f (S k) l')%nat
  end.

Lemma isum_app f k (l : list A) p :
  isum f k (l ++ [p]) = (isum f k l + f (k + length l) p)%nat.
Proof.
  revert k. induction l as [|q l IH]; intros k; simpl.
  - replace (k + 0)%nat with k by lia. lia.
  - rewrite IH. replace (S k + length l)%nat with (k + S (length l))%nat by lia. lia.
Qed.

Lemma isum_insert f k (l : list A) j p q :
  l !! j = Some p ->
  (isum f k (<[j:=q]> l) + f (k + j) p = isum f k l + f (k + j) q)%nat.
Proof.
  revert k j. induction l as [|x l IH]; intros k j Hj; [done|].
  destruct j as [|j]; simpl in *.
  - inversion Hj; subst. replace (k + 0)%nat with k by lia. lia.
  - specialize (IH (S k) j Hj).
    replace (k + S j)%nat with (S k + j)%nat by lia. lia.
Qed.

Lemma isum_pos f k (l : list A) :
  (0 < isum f k l)%nat -> exists j p, l !! j = Some p /\ (0 < f (k + j) p)%nat.
Proof.
  revert k. induction l as [|x l IH]; intros k H; simpl in *; [lia|].
  destruct (f k x) eqn:E.
  - destruct (IH (S k)) as (j & p & Hj & Hp); [lia|].
    exists (S j), p. split; [done|].
    by replace (k + S j)%nat with (S k + j)%nat by lia.
  - exists 0%nat, x. split; [done|].
    replace (k + 0)%nat with k by lia. lia.
Qed.

Lemma isum_zero f k (l : list A) j p :
  isum f k l = 0%nat -> l !! j = Some p -> f (k + j) p = 0%nat.
Proof.
  revert k j. induction l as [|x l IH]; intros k j H Hj; [done|].
  simpl in H. destruct j as [|j]; simpl in Hj.
  - inversion Hj; subst. replace (k + 0)%nat with k by lia. lia.
  - replace (k + S j)%nat with (S k + j)%nat by lia. apply IH; [lia|done].
Qed.

Lemma isum_lookup_le f k (l : list A) j p :
  l !! j = Some p -> (f (k + j) p <= isum f k l)%nat.
Proof.
  revert k j. induction l as [|x l IH]; intros k j Hj; [done|].
  destruct j as [|j]; simpl in *.
  - inversion Hj; subst. replace (k + 0)%nat with k by lia. lia.
  - specialize (IH (S k) j Hj).
    replace (k + S j)%nat with (S k + j)%nat by lia. lia.
Qed.

Lemma isum_le f g k (l : list A) :
  (forall j p, l !! j = Some p -> (f (k + j) p <= g (k + j) p)%nat) ->
  (isum f k l <= isum g k l)%nat.
Proof.
  revert k. induction l as [|x l IH]; intros k H; simpl; [lia|].
  specialize (H 0%nat x eq_refl) as H0.
  replace (k + 0)%nat with k in H0 by lia.
  assert (isum f (S k) l <= isum g (S k) l)%nat; [|lia].
  apply IH. intros j p Hj. specialize (H (S j) p Hj).
  by replace (k + S j)%nat with (S k + j)%nat in H by lia.
Qed.

Lemma isum_ext f g k (l : list A) :
  (forall j p, l !! j = Some p -> f (k + j)%nat p = g (k + j)%nat p) ->
  isum f k l = isum g k l.
Proof.
  intros H. apply Nat.le_antisymm; apply isum_le; intros j p Hj;
    rewrite (H j p Hj); lia.
Qed.

Lemma isum_one k (l : list A) : isum (fun _ _ => 1%nat) k l = length l.
Proof. revert k. induction l as [|x l IH]; intros k; simpl; [done|]. by rewrite IH. Qed.

End Isum.

Local Open Scope Z_scope.

(** Number of results whose [Success] is [true]: the loop
    [for _, result := range testResult.Results { if result.Success { successfulCount++ } }]. *)
Definition successfulCount (rs : list CheckResult) : Z :=
  fold_left (fun n r => if Success r then n + 1 else n) rs 0.

(** The same count, as a natural number. *)
Fixpoint count_true (rs : list CheckResult) : nat :=
  match rs with
  | [] => 0%nat
  | r :: rs' => ((if Success r then 1 else 0) + count_true rs')%nat
  end.

Lemma count_true_app rs1 rs2 :
  count_true (rs1 ++ rs2) = (count_true rs1 + count_true rs2)%nat.
Proof. induction rs1 as [|r rs1 IH]; simpl; [done|]. rewrite IH. lia. Qed.

Lemma count_true_le rs : (count_true rs <= length rs)%nat.
Proof. induction rs as [|[[]] rs IH]; simpl; lia. Qed.

Lemma successfulCount_count rs : successfulCount rs = Z.of_nat (count_true rs).
Proof.
  unfold successfulCount.
  assert (H : forall n, fold_left (fun n r => if Success r then n + 1 else n) rs n
                        = n + Z.of_nat (count_true rs)).
  { induction rs as [|[[]] rs IH]; intros n; simpl; [lia| |];
      rewrite IH; simpl; lia. }
  apply H.
Qed.

(** ** Formatting a [float64] *)

Local Infix "+++" := String.append (right associativity, at level 60).

Module Fmt.

(** [float64(n)] for an [int] whose magnitude is below 2^63. *)
Definition float64_of_int (z : Z) : float :=
  if z <? 0 then PrimFloat.opp (PrimFloat.of_uint63 (Uint63.of_Z (- z)))
  else PrimFloat.of_uint63 (Uint63.of_Z z).

(** Nearest integer to [num / den], ties to even ([den > 0]). *)
Definition round_half_even (num den : Z) : Z :=
  let q := num / den in
  let r := num mod den in
  if 2 * r <? den then q
  else if den <? 2 * r then q + 1
  else if Z.even q then q else q + 1.

Definition decimal (z : Z) : string := NilZero.string_of_uint (N.to_uint (Z.to_N z)).

Definition two_digits (z : Z) : string :=
  if z <? 10 then ("0" +++ decimal z)%string else decimal z.

Definition sign (s : bool) : string := if s then "-"%string else ""%string.

(** The value [m * 2^e], in hundredths, correctly rounded. *)
Definition hundredths (m : positive) (e : Z) : Z :=
  if 0 <=? e then Z.pos m * 2 ^ e * 100
  else round_half_even (Z.pos m * 100) (2 ^ (- e)).

(** The verb [%.2f] of [fmt.Printf] on a [float64]. *)
Definition fmt_2f (f : float) : string :=
  match Prim2SF f with
  | S754_nan => "NaN"%string
  | S754_infinity false => "+Inf"%string
  | S754_infinity true => "-Inf"%string
  | S754_zero s => (sign s +++ "0.00")%string
  | S754_finite s m e =>
      let h := hundredths m e in
      (sign s +++ decimal (h / 100) +++ "." +++ two_digits (h mod 100))%string
  end.
(** [float64(count) / float64(total) * 100] *)
Definition successfulPercentage (count total : Z) : float :=
  PrimFloat.mul (PrimFloat.div (float64_of_int count) (float64_of_int total)) 100%float.

(** [fmt.Printf("Процент успешных запросов: %.2f%%\n", p)] *)
Definition summary_line (p : float) : string :=
  ("Процент успешных запросов: " +++ fmt_2f p +++ "%" +++ String (ascii_of_nat 10) "")%string.

End Fmt.

(** ** The JSON document of a [TestResult]

    The program hands its [TestResult] to [encoding/json]: [json.Marshal] in
    the first variant, [json.MarshalIndent] in the second.  The serializers
    below write what that package writes for these two struct types: the
    keys of the tags, booleans as [true] and [false], a non-nil empty slice
    as an empty array. *)

Module Json.

Definition dq : ascii := ascii_of_nat 34.
Definition nl : ascii := ascii_of_nat 10.
Definition quoted (s : string) : string := String dq (s +++ String dq EmptyString).

Definition bool_lit (b : bool) : string := if b then "true"%string else "false"%string.

(** [json.Marshal] *)
Definition marshal_result (r : CheckResult) : string :=
  ("{" +++ quoted "success" +++ ":" +++ bool_lit (Success r) +++ "}")%string.

Fixpoint marshal_results (rs : list CheckResult) : string :=
  match rs with
  | [] => ""%string
  | [r] => marshal_result r
  | r :: rs' => (marshal_result r +++ "," +++ marshal_results rs')%string
  end.

Definition Marshal (t : TestResult) : string :=
  ("{" +++ quoted "results" +++ ":[" +++ marshal_results (Results t) +++ "]}")%string.

(** [json.MarshalIndent] with an empty prefix and an indent of four spaces *)
Definition indent_result (r : CheckResult) : string :=
  ("        {" +++ String nl
   ("            " +++ quoted "success" +++ ": " +++ bool_lit (Success r) +++ String nl
   "        }"))%string.

Fixpoint indent_results (rs : list CheckResult) : string :=
  match rs with
  | [] => ""%string
  | [r] => (indent_result r +++ String nl "")%string
  | r :: rs' => (indent_result r +++ "," +++ String nl (indent_results rs'))%string
  end.

Definition MarshalIndent (t : TestResult) : string :=
  match Results t with
  | [] => ("{" +++ String nl ("    " +++ quoted "results" +++ ": []" +++ String nl "}"))%string
  | rs => ("{" +++ String nl ("    " +++ quoted "results" +++ ": [" +++ String nl
           (indent_results rs +++ "    ]" +++ String nl "}")))%string
  end.

(** Modelled from the spec: a parser of the output format.  The repository
    writes [test_results.json] and never reads it back; the spec gives the
    shape of the document, an object whose key [results] holds an array of
    objects with the one boolean key [success], and says that indentation is
    cosmetic.  The decoder below reads exactly that shape, with JSON white
    space allowed between tokens. *)
Inductive token :=
| TLBrace | TRBrace | TLBracket | TRBracket | TColon | TComma
| TString (s : string) | TTrue | TFalse.

Definition is_space (c : ascii) : bool :=
  let n := nat_of_ascii c in
  (n =? 32)%nat || (n =? 9)%nat || (n =? 10)%nat || (n =? 13)%nat.

Definition cons_tok (t : token) (ts : option (list token)) : option (list token) :=
  match ts with Some l => Some (t :: l) | None => None end.

(** [mode] holds the characters of the string literal being read, if any. *)
Fixpoint lex (mode : option string) (s : string) : option (list token) :=
  match s with
  | EmptyString => match mode with None => Some [] | Some _ => None end
  | String c rest =>
      match mode with
      | Some acc =>
          if Ascii.eqb c dq then cons_tok (TString acc) (lex None rest)
          else if Ascii.eqb c "\"%char then None
          else lex (Some (acc +++ String c EmptyString)) rest
      | None =>
          if is_space c then lex None rest
          else if Ascii.eqb c "{"%char then cons_tok TLBrace (lex None rest)
          else if Ascii.eqb c "}"%char then cons_tok TRBrace (lex None rest)
          else if Ascii.eqb c "["%char then cons_tok TLBracket (lex None rest)
          else if Ascii.eqb c "]"%char then cons_tok TRBracket (lex None rest)
          else if Ascii.eqb c ":"%char then cons_tok TColon (lex None rest)
          else if Ascii.eqb c ","%char then cons_tok TComma (lex None rest)
          else if Ascii.eqb c dq then lex (Some EmptyString) rest
          else if Ascii.eqb c "t"%char then
            match rest with
            | String "r" (String "u" (String "e" rest')) => cons_tok TTrue (lex None rest')
            | _ => None
            end
          else if Ascii.eqb c "f"%char then
            match rest with
            | String "a" (String "l" (String "s" (String "e" rest'))) =>
                cons_tok TFalse (lex None rest')
            | _ => None
            end
          else None
      end
  end.

Definition parse_bool (t : token) : option bool :=
  match t with TTrue => Some true | TFalse => Some false | _ => None end.

(** The elements of the array after its opening bracket, up to and
    including the closing bracket. *)
Fixpoint parse_results (ts : list token) : option (list CheckResult * list token) :=
  match ts with
  | TLBrace :: TString key :: TColon :: b :: TRBrace :: rest =>
      if String.eqb key "success" then
        match parse_bool b with
        | Some v =>
            match rest with
            | TComma :: rest' =>
                match parse_results rest' with
                | Some (rs, out) => Some ({| Success := v |} :: rs, out)
                | None => None
                end
            | TRBracket :: rest' => Some ([{| Success := v |}], rest')
            | _ => None
            end
        | None => None
        end
      else None
  | _ => None
  end.

Definition parse_test_result (ts : list token) : option TestResult :=
  match ts with
  | TLBrace :: TString key :: TColon :: TLBracket :: rest =>
      if String.eqb key "results" then
        match rest with
        | [TRBracket; TRBrace] => Some {| Results := [] |}
        | _ =>
            match parse_results rest with
            | Some (rs, [TRBrace]) => Some {| Results := rs |}
            | _ => None
            end
        end
      else None
  | _ => None
  end.

(** Modelled from the spec: parsing the document back into a [TestResult]. *)
Definition Unmarshal (s : string) : option TestResult :=
  match lex None s with
  | Some ts => parse_test_result ts
  | None => None
  end.


(** *** Round trip *)

Definition app_toks (l : list token) (o : option (list token)) : option (list token) :=
  match o with Some l' => Some (l ++ l') | None => None end.

Definition bool_tok (b : bool) : token := if b then TTrue else TFalse.

Definition result_tokens (r : CheckResult) : list token :=
  [TLBrace; TString "success"; TColon; bool_tok (Success r); TRBrace].

Fixpoint results_tokens (rs : list CheckResult) : list token :=
  match rs with
  | [] => []
  | [r] => result_tokens r
  | r :: rs' => result_tokens r ++ TComma :: results_tokens rs'
  end.

Definition tokens (t : TestResult) : list token :=
  [TLBrace; TString "results"; TColon; TLBracket]
    ++ results_tokens (Results t) ++ [TRBracket; TRBrace].

Lemma append_assoc (a b c : string) : ((a +++ b) +++ c = a +++ (b +++ c))%string.
Proof. induction a as [|x a IH]; simpl; [done|]. by rewrite IH. Qed.

Lemma app_toks_app l1 l2 o : app_toks (l1 ++ l2) o = app_toks l1 (app_toks l2 o).
Proof. destruct o; simpl; [by rewrite app_assoc|done]. Qed.

Lemma lex_comma rest : lex None ("," +++ rest) = cons_tok TComma (lex None rest).
Proof. reflexivity. Qed.

Lemma lex_nl rest : lex None (String nl rest) = lex None rest.
Proof. reflexivity. Qed.

Lemma lex_result r rest :
  lex None (marshal_result r +++ rest) = app_toks (result_tokens r) (lex None rest).
Proof. destruct r as [[]]; simpl; destruct (lex None rest); reflexivity. Qed.

Lemma lex_results rs rest :
  lex None (marshal_results rs +++ rest) = app_toks (results_tokens rs) (lex None rest).
Proof.
  induction rs as [|r [|r' rs] IH].
  - simpl. by destruct (lex None rest).
  - apply lex_result.
  - change (marshal_results (r :: r' :: rs))
      with (marshal_result r +++ "," +++ marshal_results (r' :: rs))%string.
    change (results_tokens (r :: r' :: rs))
      with (result_tokens r ++ TComma :: results_tokens (r' :: rs)).
    rewrite !append_assoc, lex_result, lex_comma, IH, app_toks_app.
    destruct (lex None rest); reflexivity.
Qed.

Lemma lex_header rest :
  lex None ("{" +++ quoted "results" +++ ":[" +++ rest)
  = app_toks [TLBrace; TString "results"; TColon; TLBracket] (lex None rest).
Proof. simpl. destruct (lex None rest); reflexivity. Qed.

Lemma lex_Marshal t : lex None (Marshal t) = Some (tokens t).
Proof.
  unfold Marshal, tokens. rewrite lex_header, lex_results. reflexivity.
Qed.

Lemma lex_indent_result r rest :
  lex None (indent_result r +++ rest) = app_toks (result_tokens r) (lex None rest).
Proof. destruct r as [[]]; simpl; destruct (lex None rest); reflexivity. Qed.

Lemma lex_indent_results rs rest :
  lex None (indent_results rs +++ rest) = app_toks (results_tokens rs) (lex None rest).
Proof.
  induction rs as [|r [|r' rs] IH].
  - simpl. by destruct (lex None rest).
  - change (indent_results [r]) with (indent_result r +++ String nl "")%string.
    rewrite append_assoc, lex_indent_result. reflexivity.
  - change (indent_results (r :: r' :: rs))
      with (indent_result r +++ "," +++ String nl (indent_results (r' :: rs)))%string.
    change (results_tokens (r :: r' :: rs))
      with (result_tokens r ++ TComma :: results_tokens (r' :: rs)).
    rewrite !append_assoc, lex_indent_result, lex_comma.
    change (String nl (indent_results (r' :: rs)) +++ rest)%string
      with (String nl (indent_results (r' :: rs) +++ rest)).
    rewrite lex_nl, IH, app_toks_app.
    destruct (lex None rest); reflexivity.
Qed.

Lemma lex_indent_header rest :
  lex None ("{" +++ String nl ("    " +++ quoted "results" +++ ": [" +++ String nl rest))
  = app_toks [TLBrace; TString "results"; TColon; TLBracket] (lex None rest).
Proof. simpl. destruct (lex None rest); reflexivity. Qed.

Lemma lex_MarshalIndent t : lex None (MarshalIndent t) = Some (tokens t).
Proof.
  unfold MarshalIndent, tokens. destruct (Results t) as [|r rs] eqn:E; [reflexivity|].
  rewrite lex_indent_header, lex_indent_results. reflexivity.
Qed.

Lemma parse_results_cons r rest :
  parse_results (result_tokens r ++ TComma :: rest)
  = match parse_results rest with
    | Some (rs, out) => Some (r :: rs, out)
    | None => None
    end.
Proof. destruct r as [[]]; reflexivity. Qed.

Lemma parse_results_tokens r rs out :
  parse_results (results_tokens (r :: rs) ++ TRBracket :: out) = Some (r :: rs, out).
Proof.
  revert r. induction rs as [|r' rs IH]; intros r.
  - destruct r as [[]]; reflexivity.
  - change (results_tokens (r :: r' :: rs))
      with (result_tokens r ++ TComma :: results_tokens (r' :: rs)).
    rewrite <- app_assoc.
    change ((TComma :: results_tokens (r' :: rs)) ++ TRBracket :: out)
      with (TComma :: (results_tokens (r' :: rs) ++ TRBracket :: out)).
    rewrite parse_results_cons, IH. reflexivity.
Qed.

Lemma results_tokens_head r rs : exists tl, results_tokens (r :: rs) = TLBrace :: tl.
Proof. destruct rs; eexists; reflexivity. Qed.

Lemma parse_test_result_cons tl :
  parse_test_result (TLBrace :: TString "results" :: TColon :: TLBracket :: TLBrace :: tl)
  = match parse_results (TLBrace :: tl) with
    | Some (rs, [TRBrace]) => Some {| Results := rs |}
    | _ => None
    end.
Proof. reflexivity. Qed.

Lemma parse_tokens t : parse_test_result (tokens t) = Some t.
Proof.
  destruct t as [[|r rs]]; [reflexivity|].
  unfold tokens. cbn [Results].
  change ([TLBrace; TString "results"; TColon; TLBracket] ++
          results_tokens (r :: rs) ++ [TRBracket; TRBrace])
    with (TLBrace :: TString "results" :: TColon :: TLBracket ::
          (results_tokens (r :: rs) ++ TRBracket :: [TRBrace])).
  pose proof (parse_results_tokens r rs [TRBrace]) as Hp.
  destruct (results_tokens_head r rs) as (tl & Htl). rewrite Htl in *.
  change ((TLBrace :: tl) ++ [TRBracket; TRBrace])
    with (TLBrace :: (tl ++ [TRBracket; TRBrace])) in *.
  rewrite parse_test_result_cons, Hp. reflexivity.
Qed.

Lemma Unmarshal_Marshal t : Unmarshal (Marshal t) = Some t.
Proof. unfold Unmarshal. rewrite lex_Marshal. apply parse_tokens. Qed.

Lemma Unmarshal_MarshalIndent t : Unmarshal (MarshalIndent t) = Some t.
Proof. unfold Unmarshal. rewrite lex_MarshalIndent. apply parse_tokens. Qed.

End Json.

(** What a run leaves behind: the summary line on standard output and the
    content of [test_results.json], when the write succeeded. *)
Record Output := { stdout : string; file : option string }.

(** Case analysis on the guards of one step of a transition function. *)
Ltac step_cases :=
  repeat match goal with
  | |- None = Some _ -> _ => discriminate
  | |- ?X -> _ =>
      lazymatch X with
      | context [?a <? ?b] => destruct (Z.ltb_spec a b)
      | context [if ?a =? ?b then _ else _] => destruct (Z.eqb_spec a b)
      | context [match Channel.buf ?c with _ => _ end] =>
          destruct (Channel.buf c) eqn:?; simpl
      | context [if ?b then _ else _] => destruct b eqn:?
      | context [match ?x with _ => _ end] => destruct x eqn:?
      end
  | |- Some _ = Some _ -> _ => intros [= <-]
  end.

(** Replaces the sum over an updated probe list by a fresh number related to
    the sum over the old list. *)
Ltac use_insert Hlk :=
  match type of Hlk with
  | ?l !! ?k = Some ?p =>
      repeat match goal with
      | |- context [isum ?f 0 (<[k:=?q]> l)] =>
          let H := fresh "Hins" in
          pose proof (isum_insert f 0 l k p q Hlk) as H; simpl in H;
          let x := fresh "x" in
          set (x := isum f 0 (<[k:=q]> l)) in *; clearbody x
      end
  end.

(** ** The variant with the [os.Signal] channel (first program of [main.go],
    lines 1 to 119) *)

Module V1.

(** Program points of one [performCheck] goroutine. *)
Inductive Probe :=
| PGet                    (* inside [http.Get] *)
| PErr                    (* [err != nil]: about to send [CheckResult{Success: false}] *)
| PResp (status : Z)      (* a response in hand: about to send the result *)
| PDefer (b : Body)       (* body finished: deferred [wg.Done()] pending *)
| PPanic                  (* sent on a closed channel: panicking, deferred call pending *)
| PFatal                  (* deferred calls ran: the runtime aborts the process next *)
| PDone (b : Body).       (* goroutine gone *)

(** Program points of the goroutine that runs [runTests]. *)
Inductive Orch :=
| OLoop (i : Z)           (* [i < numChecks] is tested next *)
| OAdd (i : Z)            (* [wg.Add(1)] *)
| OGo (i : Z)             (* [go performCheck(ctx, &wg, results)] *)
| OSleep (i : Z)          (* [time.Sleep(interval)] *)
| OSelect (i : Z)         (* [select { case <-stop: ... default: }], then [i++] *)
| OStopClose              (* signal received: [close(results)] *)
| OStopWait               (* signal received: [wg.Wait()] *)
| OStopReturn             (* signal received: [return] *)
| OWait                   (* after the loop: [wg.Wait()] *)
| OClose                  (* after the loop: [close(results)] *)
| OCollect (acc : list CheckResult)        (* [for result := range results] *)
| OReport (r : TestResult)                 (* counting, printing, saving *)
| ODone (r : TestResult) (out : Output).   (* [runTests] has returned *)

Record State := {
  orch : Orch;
  probes : list Probe;     (* launched goroutines, by launch index *)
  ch : Channel.chan;       (* [results] *)
  wg : Z;                  (* counter of the [sync.WaitGroup] *)
  stop : bool;             (* a signal is buffered in [stop] (capacity 1) *)
  crashed : bool           (* the process died of a panic *)
}.

Inductive Action :=
| AOrch                    (* the orchestrating goroutine runs one statement *)
| AProbe (k : nat)         (* probe [k] runs one statement *)
| ASignal.                 (* SIGINT or SIGTERM is delivered into [stop] *)

Definition with_orch (o : Orch) (s : State) : State :=
  {| orch := o; probes := probes s; ch := ch s; wg := wg s;
     stop := stop s; crashed := crashed s |}.

Definition with_probe (k : nat) (p : Probe) (s : State) : State :=
  {| orch := orch s; probes := <[k:=p]> (probes s); ch := ch s; wg := wg s;
     stop := stop s; crashed := crashed s |}.

Definition with_ch (c : Channel.chan) (s : State) : State :=
  {| orch := orch s; probes := probes s; ch := c; wg := wg s;
     stop := stop s; crashed := crashed s |}.

Definition with_wg (n : Z) (s : State) : State :=
  {| orch := orch s; probes := probes s; ch := ch s; wg := n;
     stop := stop s; crashed := crashed s |}.

Definition with_stop (b : bool) (s : State) : State :=
  {| orch := orch s; probes := probes s; ch := ch s; wg := wg s;
     stop := b; crashed := crashed s |}.

Definition spawn (p : Probe) (s : State) : State :=
  {| orch := orch s; probes := probes s ++ [p]; ch := ch s; wg := wg s;
     stop := stop s; crashed := crashed s |}.

Definition crash (s : State) : State :=
  {| orch := orch s; probes := probes s; ch := ch s; wg := wg s;
     stop := stop s; crashed := true |}.

Section Program.
(** What the network answers to the probe launched [k]-th. *)
Variable transport : nat -> HttpOutcome.
Variable numChecks : Z.
(** Whether [ioutil.WriteFile] succeeds. *)
Variable write_ok : bool.

(** [results <- v] run by probe [k]; afterwards only the deferred call is left. *)
Definition send_result (k : nat) (v : CheckResult) (b : Body) (s : State) : option State :=
  match Channel.send v (ch s) with
  | Channel.SendOk c => Some (with_probe k (PDefer b) (with_ch c s))
  | Channel.SendBlocks => None
  | Channel.SendPanics => Some (with_probe k PPanic s)
  end.

(** [wg.Done()]: a negative counter panics. *)
Definition wg_done (k : nat) (after : Probe) (s : State) : State :=
  if wg s - 1 <? 0 then crash s
  else with_probe k after (with_wg (wg s - 1) s).

(** One statement of [performCheck], run by probe [k] at program point [p]. *)
Definition performCheck (k : nat) (p : Probe) (s : State) : option State :=
  match p with
  | PGet =>
      match transport k with
      | TransportErr => Some (with_probe k PErr s)
      | Response status => Some (with_probe k (PResp status) s)
      end
  | PErr => send_result k {| Success := false |} NoBody s
  | PResp status =>
      let success := status =? StatusOK in
      send_result k {| Success := success |} BodyOpen s
  | PDefer b => Some (wg_done k (PDone b) s)
  | PPanic => Some (wg_done k PFatal s)
  | PFatal => Some (crash s)
  | PDone _ => None
  end.

(** The tail of [runTests]: counting, printing and saving. *)
Definition report (testResult : TestResult) : Output :=
  let successfulCount := successfulCount (Results testResult) in
  let successfulPercentage := Fmt.successfulPercentage successfulCount numChecks in
  let jsonData := Json.Marshal testResult in
  {| stdout := Fmt.summary_line successfulPercentage;
     file := if write_ok then Some jsonData else None |}.

(** One statement of [runTests]. *)
Definition runTests (s : State) : option State :=
  match orch s with
  | OLoop i =>
      if i <? numChecks then Some (with_orch (OAdd i) s)
      else Some (with_orch OWait s)
  | OAdd i => Some (with_orch (OGo i) (with_wg (wg s + 1) s))
  | OGo i => Some (with_orch (OSleep i) (spawn PGet s))
  | OSleep i => Some (with_orch (OSelect i) s)
  | OSelect i =>
      if stop s then Some (with_orch OStopClose (with_stop false s))
      else Some (with_orch (OLoop (i + 1)) s)
  | OStopClose =>
      match Channel.close (ch s) with
      | Some c => Some (with_orch OStopWait (with_ch c s))
      | None => Some (crash s)
      end
  | OStopWait =>
      if wg s =? 0 then Some (with_orch OStopReturn s) else None
  | OStopReturn => None
  | OWait =>
      if wg s =? 0 then Some (with_orch OClose s) else None
  | OClose =>
      match Channel.close (ch s) with
      | Some c => Some (with_orch (OCollect []) (with_ch c s))
      | None => Some (crash s)
      end
  | OCollect acc =>
      match Channel.recv (ch s) with
      | Channel.RecvOk v c => Some (with_orch (OCollect (acc ++ [v])) (with_ch c s))
      | Channel.RecvClosed => Some (with_orch (OReport {| Results := acc |}) s)
      | Channel.RecvBlocks => None
      end
  | OReport r => Some (with_orch (ODone r (report r)) s)
  | ODone _ _ => None
  end.

(** A signal that finds [stop] full is dropped by [signal.Notify] and
    changes nothing, so it is not a transition. *)
Definition step (s : State) (a : Action) : option State :=
  if crashed s then None
  else match a with
       | AOrch => runTests s
       | AProbe k =>
           match probes s !! k with
           | Some p => performCheck k p s
           | None => None
           end
       | ASignal => if stop s then None else Some (with_stop true s)
       end.

(** The state in which the loop of [runTests] starts; [make] with a negative
    size panics.  [sig0] tells whether a signal is already buffered. *)
Definition init (sig0 : bool) : State :=
  {| orch := OLoop 0; probes := []; ch := Channel.make numChecks; wg := 0;
     stop := sig0; crashed := numChecks <? 0 |}.

(** [runTests] has returned: after a signal with nothing to show, otherwise
    with the collected results reported. *)
Definition returned (s : State) : option (option (TestResult * Output)) :=
  match orch s with
  | OStopReturn => Some None
  | ODone r out => Some (Some (r, out))
  | _ => None
  end.

End Program.

(** *** Invariants of the reachable states *)

(** Probes whose [wg.Done()] is still to come. *)
Definition live (p : Probe) : nat :=
  match p with PDone _ | PFatal => 0 | _ => 1 end.

(** Probes that still have their send ahead of them. *)
Definition presend (p : Probe) : nat :=
  match p with PGet | PErr | PResp _ => 1 | _ => 0 end.

(** Probes that did send, as long as no send has panicked. *)
Definition sent (p : Probe) : nat :=
  match p with PDefer _ | PDone _ => 1 | _ => 0 end.

(** Between [wg.Add(1)] and the [go] statement the counter is one ahead. *)
Definition go_pending (o : Orch) : Z :=
  match o with OGo _ => 1 | _ => 0 end.

(** The results already received from the channel. *)
Definition collected (o : Orch) : list CheckResult :=
  match o with
  | OCollect acc => acc
  | OReport r | ODone r _ => Results r
  | _ => []
  end.

(** The channel was closed on the signal path, before the wait. *)
Definition early_closed (o : Orch) : bool :=
  match o with OStopWait | OStopReturn => true | _ => false end.

Section Invariants.
Variable transport : nat -> HttpOutcome.
Variable numChecks : Z.
Variable write_ok : bool.

(** What a probe holds agrees with what the network answered it. *)
Definition probe_ok (k : nat) (p : Probe) : Prop :=
  match p with
  | PErr => transport k = TransportErr
  | PResp status => transport k = Response status
  | _ => True
  end.

(** No send has panicked. *)
Definition no_panic (p : Probe) : Prop :=
  match p with PPanic | PFatal => False | _ => True end.

Definition ok200 (k : nat) : nat :=
  match transport k with
  | Response status => if status =? StatusOK then 1 else 0
  | TransportErr => 0
  end.

Definition live_probes (s : State) : nat := isum (fun _ => live) 0 (probes s).


Definition launched (s : State) : Z := Z.of_nat (length (probes s)).

(** Where the orchestrating goroutine stands fixes how many probes were
    launched, whether the channel is closed, and, past a [wg.Wait()], that no
    probe is live. *)
Definition orch_ok (s : State) : Prop :=
  match orch s with
  | OLoop i =>
      0 <= i <= numChecks /\ launched s = i /\ Channel.closed (ch s) = false
  | OAdd i | OGo i =>
      0 <= i < numChecks /\ launched s = i /\ Channel.closed (ch s) = false
  | OSleep i | OSelect i =>
      0 <= i < numChecks /\ launched s = i + 1 /\ Channel.closed (ch s) = false
  | OStopClose => launched s <= numChecks /\ Channel.closed (ch s) = false
  | OStopWait => launched s <= numChecks /\ Channel.closed (ch s) = true
  | OStopReturn =>
      launched s <= numChecks /\ Channel.closed (ch s) = true /\ live_probes s = 0%nat
  | OWait => launched s = numChecks /\ Channel.closed (ch s) = false
  | OClose =>
      launched s = numChecks /\ Channel.closed (ch s) = false /\ live_probes s = 0%nat
  | OCollect _ =>
      launched s = numChecks /\ Channel.closed (ch s) = true /\ live_probes s = 0%nat
  | OReport _ =>
      launched s = numChecks /\ Channel.closed (ch s) = true /\ live_probes s = 0%nat /\
      Channel.buf (ch s) = []
  | ODone r out =>
      launched s = numChecks /\ Channel.closed (ch s) = true /\ live_probes s = 0%nat /\
      Channel.buf (ch s) = [] /\ out = report numChecks write_ok r
  end.

Record Clean (s : State) : Prop := {
  clean_crashed : crashed s = false;
  clean_probes : forall k p, probes s !! k = Some p -> no_panic p;
  clean_sent :
    (length (collected (orch s)) + length (Channel.buf (ch s))
     = isum (fun _ => sent) 0 (probes s))%nat;
  clean_succ :
    count_true (collected (orch s) ++ Channel.buf (ch s))
    = isum (fun k p => (sent p * ok200 k)%nat) 0 (probes s)
}.

Record Inv (s : State) : Prop := {
  inv_cap : Channel.cap (ch s) = numChecks;
  inv_wg : wg s = Z.of_nat (live_probes s) + go_pending (orch s);
  inv_orch : orch_ok s;
  inv_probe : forall k p, probes s !! k = Some p -> probe_ok k p;
  inv_count :
    (length (Channel.buf (ch s)) + length (collected (orch s))
     + isum (fun _ => presend) 0 (probes s) <= length (probes s))%nat;
  inv_clean : early_closed (orch s) = false -> Clean s
}.

Lemma init_inv_v1 sig0 : 0 <= numChecks -> Inv (init numChecks sig0).
Proof.
  intros Hn. split; simpl; try done;
    try (unfold orch_ok, launched; simpl; lia).
  intros _. split; simpl; try done.
  destruct (Z.ltb_spec numChecks 0); lia || done.
Qed.

Lemma launched_le_v1 s : Inv s -> launched s <= numChecks.
Proof.
  intros HI. pose proof (inv_orch _ HI) as Ho. unfold orch_ok in Ho.
  destruct (orch s); lia.
Qed.

Lemma live_open_v1 s k p :
  orch_ok s -> probes s !! k = Some p -> live p = 1%nat ->
  early_closed (orch s) = false -> Channel.closed (ch s) = false.
Proof.
  unfold orch_ok, live_probes. intros Ho Hk Hl He.
  destruct (orch s); try done; try tauto;
    destruct Ho as (_ & _ & Hz & _) || destruct Ho as (_ & _ & Hz);
    pose proof (isum_zero _ _ _ _ _ Hz Hk) as Hz'; simpl in Hz'; lia.
Qed.

Lemma step_inv_v1 s a s' :
  Inv s -> step transport numChecks write_ok s a = Some s' -> Inv s'.
Proof.
  intros [Hcap Hwg Horch Hprobe Hcount Hclean] Hs.
  unfold step in Hs. destruct (crashed s) eqn:Hc; [done|].
  destruct a as [|k|].
  - unfold runTests, Channel.close, Channel.recv in Hs.
    unfold orch_ok, launched, live_probes in *.
    destruct (orch s) eqn:Eo; simpl in Hs, Hclean; revert Hs; step_cases.
    all: try (destruct (Hclean eq_refl) as [_ Hcp Hsent Hsucc]; rewrite ?Eo in *).
    all: split; simpl.
    all: try lazymatch goal with
         | |- _ -> Clean _ => let He := fresh in intros He; try discriminate He; split; simpl
         end.
    all: unfold orch_ok, launched, live_probes in *; simpl in *.
    all: try rewrite length_app in *; try rewrite isum_app in *; simpl in *.
    all: try done.
    all: try lia.
    all: try (intros k p [?|[? [_ <-]%list_lookup_singleton_Some]]%lookup_app_Some; simpl; eauto).
    all: try (repeat split; try tauto; try lia; fail).
    all: try (match goal with H : Channel.buf _ = _ |- _ => rewrite H in * end; simpl in *;
              rewrite <- ?app_assoc, ?app_nil_r in *; simpl; done || lia).
    all: try (rewrite <- app_assoc; simpl; done).
  - destruct (probes s !! k) as [p|] eqn:Hlk; [|done].
    unfold performCheck, send_result, wg_done, Channel.send in Hs.
    pose proof (Hprobe _ _ Hlk) as Hp.
    pose proof (isum_lookup_le (fun _ => live) 0 _ _ _ Hlk) as Hlive.
    destruct (early_closed (orch s)) eqn:Hec.
    + clear Hclean.
      destruct p; simpl in Hs, Hp; try done.
      all: revert Hs; step_cases.
      all: split; simpl; try (rewrite Hec; done); try done.
      all: unfold orch_ok, launched, live_probes in *; simpl in *.
      all: rewrite ?length_insert, ?length_app; simpl.
      all: try (intros k' p' [(-> & <- & _)|(? & ?)]%list_lookup_insert_Some; simpl; eauto; fail).
      all: use_insert Hlk.
      all: try lia.
      all: try (destruct (orch s); simpl in *; intuition (try lia; try congruence); fail).
      all: try (destruct (orch s); simpl in *; lia).
    + destruct (Hclean eq_refl) as [_ Hcp Hsent Hsucc].
      pose proof (Hcp _ _ Hlk) as Hnp.
      destruct p; simpl in Hs, Hp, Hnp; try done.
      all: pose proof (live_open_v1 _ _ _ Horch Hlk eq_refl Hec) as Hopen; try rewrite Hopen in Hs.
      all: revert Hs; step_cases.
      all: split; simpl.
      all: try lazymatch goal with
           | |- _ -> Clean _ => let He := fresh in intros He; split; simpl
           end.
      all: try done.
      all: unfold orch_ok, launched, live_probes in *; simpl in *.
      all: rewrite ?length_insert, ?length_app; simpl.
      all: try (intros k' p' [(-> & <- & _)|(? & ?)]%list_lookup_insert_Some; simpl; eauto; fail).
      all: use_insert Hlk.
      all: try lia.
      all: try (destruct (orch s); simpl in *; intuition (try lia; try congruence); fail).
      all: try (destruct (orch s); simpl in *; lia).
      all: rewrite app_assoc, count_true_app; simpl; unfold ok200 in *; rewrite Hp in *.
      all: try destruct (status =? StatusOK); lia.
  - destruct (stop s) eqn:Ec; [done|]. revert Hs; intros [= <-].
    split; simpl; try done.
    intros He. destruct (Hclean He). split; simpl; done.
Qed.

(** *** Termination measure and progress *)

Definition probe_mu (p : Probe) : nat :=
  match p with
  | PGet => 4 | PErr | PResp _ => 3 | PPanic => 2
  | PDefer _ => 1 | PFatal | PDone _ => 0
  end.

Definition orch_mu (o : Orch) : nat :=
  match o with
  | OLoop i => 10 * Z.to_nat (numChecks - i) + 6
  | OAdd i => 10 * Z.to_nat (numChecks - i - 1) + 15
  | OGo i => 10 * Z.to_nat (numChecks - i - 1) + 14
  | OSleep i => 10 * Z.to_nat (numChecks - i - 1) + 8
  | OSelect i => 10 * Z.to_nat (numChecks - i - 1) + 7
  | OWait => 5
  | OStopClose | OClose => 4
  | OStopWait | OCollect _ => 3
  | OReport _ => 2
  | OStopReturn | ODone _ _ => 0
  end%nat.

Definition mu (s : State) : nat :=
  (orch_mu (orch s) + isum (fun _ => probe_mu) 0 (probes s)
   + length (Channel.buf (ch s))
   + (if stop s then 0 else 1) + (if crashed s then 0 else 1))%nat.

Lemma step_decreases_v1 s a s' :
  step transport numChecks write_ok s a = Some s' -> (mu s' < mu s)%nat.
Proof.
  unfold step, mu. destruct (crashed s) eqn:Hc; [done|].
  destruct a as [|k|].
  - unfold runTests, Channel.close, Channel.recv.
    destruct (orch s) eqn:Eo; simpl; step_cases; simpl;
      rewrite ?Hc, ?Eo, ?isum_app; simpl;
      try match goal with H : Channel.buf _ = _ |- _ => rewrite H end;
      try match goal with H : stop _ = _ |- _ => rewrite H end; simpl; try lia.
  - destruct (probes s !! k) as [p|] eqn:Hlk; [|done].
    unfold performCheck, send_result, wg_done, Channel.send.
    destruct p; simpl; step_cases; simpl; rewrite ?Hc, ?length_app; simpl;
      use_insert Hlk; try lia.
  - destruct (stop s) eqn:Ec; [done|]. intros [= <-]. simpl. rewrite Hc. lia.
Qed.

Lemma init_mu_v1 sig0 :
  0 <= numChecks -> (mu (init numChecks sig0) <= 10 * Z.to_nat numChecks + 8)%nat.
Proof.
  intros. unfold mu; simpl. replace (numChecks - 0) with numChecks by lia.
  destruct sig0, (numChecks <? 0); lia.
Qed.

(** As long as the signal path has not been taken, an action other than a
    signal is enabled until [runTests] has returned. *)
Lemma progress_v1 s :
  Inv s -> returned s = None ->
  match orch s with OStopClose | OStopWait => False | _ => True end ->
  exists a, a <> ASignal /\ is_Some (step transport numChecks write_ok s a).
Proof.
  intros [Hcap Hwg Horch Hprobe Hcount Hclean] Hr Hpath.
  assert (Hec : early_closed (orch s) = false)
    by (unfold returned in Hr; destruct (orch s); done).
  destruct (Hclean Hec) as [Hc Hcp Hsent Hsucc].
  unfold returned in Hr. unfold step. rewrite Hc.
  unfold orch_ok, launched, live_probes in *.
  destruct (orch s) eqn:Eo; try done.
  1-5,7-9: exists AOrch; split; [done|];
    unfold runTests, Channel.close, Channel.recv;
    rewrite Eo; simpl;
    try (destruct Horch as (_ & -> & _)); repeat case_match; eauto; congruence.
  destruct (Z.eqb_spec (wg s) 0) as [Hz|Hz].
  { exists AOrch; split; [done|]. unfold runTests. rewrite Eo.
    destruct (Z.eqb_spec (wg s) 0); [eauto|done]. }
  simpl in Hwg.
  destruct (isum_pos (fun _ => live) 0 (probes s)) as (j & p & Hj & Hp); [lia|].
  exists (AProbe j). split; [done|]. rewrite Hj.
  pose proof (Hprobe _ _ Hj) as Hok.
  pose proof (Hcp _ _ Hj) as Hnp.
  pose proof (isum_lookup_le (fun _ => presend) 0 _ _ _ Hj) as Hpre.
  unfold performCheck, send_result, wg_done, Channel.send.
  destruct Horch as [Hle Hopen]. rewrite Hopen.
  destruct p; simpl in *; try done; try lia.
  all: repeat case_match; simpl; eauto; try congruence.
  all: match goal with H : (_ <? _) = false |- _ => apply Z.ltb_ge in H end; lia.
Qed.

Lemma reachable_inv_v1 sig0 sched s :
  0 <= numChecks ->
  exec (step transport numChecks write_ok) (init numChecks sig0) sched = Some s -> Inv s.
Proof.
  intros Hn He.
  eapply (exec_invariant (step transport numChecks write_ok) Inv (fun _ => True));
    [| apply init_inv_v1, Hn | | exact He].
  - intros s0 a s1 HI _ Hs. eapply step_inv_v1; eauto.
  - by apply Forall_forall.
Qed.

Lemma run_bounded_v1 sig0 sched s :
  0 <= numChecks ->
  exec (step transport numChecks write_ok) (init numChecks sig0) sched = Some s ->
  (length sched <= 10 * Z.to_nat numChecks + 8)%nat.
Proof.
  intros Hn He.
  pose proof (exec_measure (step transport numChecks write_ok)
                (fun _ => True) (fun _ => True) mu
                (fun _ _ _ _ _ _ => I)
                (fun s0 a s1 _ _ Hs => step_decreases_v1 s0 a s1 Hs)
                sched _ _ I (proj2 (Forall_forall _ _) (fun _ _ => I)) He) as Hm.
  pose proof (init_mu_v1 sig0 Hn). lia.
Qed.

End Invariants.

Section Runs.
Variable transport : nat -> HttpOutcome.
Variable numChecks : Z.
Variable write_ok : bool.

(** *** Runs in which no signal is delivered *)




(** After the normal path every launched probe is done and did send. *)
Lemma all_sent_v1 s :
  Clean transport s -> live_probes s = 0%nat ->
  forall k p, probes s !! k = Some p -> sent p = 1%nat.
Proof.
  intros HC Hl k p Hk.
  pose proof (isum_zero _ _ _ _ _ Hl Hk) as Hz.
  pose proof (clean_probes _ _ HC _ _ Hk) as Hok.
  destruct p; simpl in *; done.
Qed.

Lemma done_all s r out :
  Inv transport numChecks write_ok s -> returned s = Some (Some (r, out)) ->
  length (Results r) = Z.to_nat numChecks /\
  count_true (Results r) = isum (fun k _ => ok200 transport k) 0 (probes s) /\
  length (probes s) = Z.to_nat numChecks /\
  out = report numChecks write_ok r.
Proof.
  intros HI Hr. unfold returned in Hr.
  destruct (orch s) as [| | | | | | | | | | | |r' out'] eqn:Eo; try done.
  injection Hr as -> ->.
  pose proof (inv_orch _ _ _ _ HI) as Ho. unfold orch_ok, launched in Ho.
  rewrite Eo in Ho. destruct Ho as (He & _ & Hl & Hb & Hout).
  assert (HC : Clean transport s) by (apply (inv_clean _ _ _ _ HI); rewrite Eo; done).
  pose proof (clean_sent _ _ HC) as Hs. pose proof (clean_succ _ _ HC) as Hsu.
  rewrite Eo, Hb in Hs, Hsu. simpl in Hs, Hsu. rewrite app_nil_r in Hsu.
  rewrite (isum_ext (fun _ => sent) (fun _ _ => 1%nat)) in Hs
    by (intros; eapply all_sent_v1; eauto).
  rewrite isum_one in Hs.
  rewrite (isum_ext _ (fun k _ => ok200 transport k)) in Hsu
    by (intros j p Hj; simpl; rewrite (all_sent_v1 s HC Hl _ _ Hj); lia).
  repeat split; [lia|done|lia|done].
Qed.

End Runs.

End V1.

(** ** The variant with [ctx.Done()] (second program of [main.go], lines 121
    to 262) *)

Module V2.

(** Program points of one [performCheck] goroutine. *)
Inductive Probe :=
| PGet                    (* inside [http.Get] *)
| PErr                    (* [err != nil]: about to send [CheckResult{Success: false}] *)
| PResp (status : Z)      (* a response in hand: about to run the [select] *)
| PSend (success : bool)  (* [default] branch taken: about to send the result *)
| PDefer (b : Body)       (* body finished: deferred [wg.Done()] pending *)
| PPanic                  (* sent on a closed channel: panicking, deferred call pending *)
| PFatal                  (* deferred calls ran: the runtime aborts the process next *)
| PDone (b : Body).       (* goroutine gone *)

(** Program points of the goroutine that runs [runTests]. *)
Inductive Orch :=
| OLoop (i : Z)           (* [i < numChecks] is tested next *)
| OAdd (i : Z)            (* [wg.Add(1)] *)
| OGo (i : Z)             (* [go performCheck(ctx, &wg, results)] *)
| OSelect (i : Z)         (* [select { case <-ctx.Done(): ... default: ... }] *)
| OSleep (i : Z)          (* [time.Sleep(interval)], then [i++] *)
| OWait (early : bool)    (* [wg.Wait()]; [early] inside the [select] branch *)
| OClose (early : bool)   (* [close(results)] *)
| OCollect (early : bool) (acc : list CheckResult)  (* loop of [collectResults] *)
| OReturn (early : bool) (r : TestResult).          (* [runTests] has returned [r] *)

Record State := {
  orch : Orch;
  probes : list Probe;     (* launched goroutines, by launch index *)
  ch : Channel.chan;       (* [results] *)
  wg : Z;                  (* counter of the [sync.WaitGroup] *)
  cancelled : bool;        (* [ctx.Done()] is closed *)
  crashed : bool           (* the process died of a panic *)
}.

Inductive Action :=
| AOrch                    (* the orchestrating goroutine runs one statement *)
| AProbe (k : nat)         (* probe [k] runs one statement *)
| ACancel.                 (* [cancel()] is called *)

Definition with_orch (o : Orch) (s : State) : State :=
  {| orch := o; probes := probes s; ch := ch s; wg := wg s;
     cancelled := cancelled s; crashed := crashed s |}.

Definition with_probe (k : nat) (p : Probe) (s : State) : State :=
  {| orch := orch s; probes := <[k:=p]> (probes s); ch := ch s; wg := wg s;
     cancelled := cancelled s; crashed := crashed s |}.

Definition with_ch (c : Channel.chan) (s : State) : State :=
  {| orch := orch s; probes := probes s; ch := c; wg := wg s;
     cancelled := cancelled s; crashed := crashed s |}.

Definition with_wg (n : Z) (s : State) : State :=
  {| orch := orch s; probes := probes s; ch := ch s; wg := n;
     cancelled := cancelled s; crashed := crashed s |}.

Definition spawn (p : Probe) (s : State) : State :=
  {| orch := orch s; probes := probes s ++ [p]; ch := ch s; wg := wg s;
     cancelled := cancelled s; crashed := crashed s |}.

Definition cancel (s : State) : State :=
  {| orch := orch s; probes := probes s; ch := ch s; wg := wg s;
     cancelled := true; crashed := crashed s |}.

Definition crash (s : State) : State :=
  {| orch := orch s; probes := probes s; ch := ch s; wg := wg s;
     cancelled := cancelled s; crashed := true |}.

Section Program.
(** What the network answers to the probe launched [k]-th. *)
Variable transport : nat -> HttpOutcome.
Variable numChecks : Z.

(** [results <- v] run by probe [k]; afterwards only the deferred call is left. *)
Definition send_result (k : nat) (v : CheckResult) (b : Body) (s : State) : option State :=
  match Channel.send v (ch s) with
  | Channel.SendOk c => Some (with_probe k (PDefer b) (with_ch c s))
  | Channel.SendBlocks => None
  | Channel.SendPanics => Some (with_probe k PPanic s)
  end.

(** [wg.Done()]: a negative counter panics. *)
Definition wg_done (k : nat) (after : Probe) (s : State) : State :=
  if wg s - 1 <? 0 then crash s
  else with_probe k after (with_wg (wg s - 1) s).

(** One statement of [performCheck], run by probe [k] at program point [p]. *)
Definition performCheck (k : nat) (p : Probe) (s : State) : option State :=
  match p with
  | PGet =>
      match transport k with
      | TransportErr => Some (with_probe k PErr s)
      | Response status => Some (with_probe k (PResp status) s)
      end
  | PErr => send_result k {| Success := false |} NoBody s
  | PResp status =>
      let success := status =? StatusOK in
      if cancelled s
      then Some (with_probe k (PDefer BodyClosed) s)
      else Some (with_probe k (PSend success) s)
  | PSend success => send_result k {| Success := success |} BodyOpen s
  | PDefer b => Some (wg_done k (PDone b) s)
  | PPanic => Some (wg_done k PFatal s)
  | PFatal => Some (crash s)
  | PDone _ => None
  end.

(** One iteration of [for result := range results] in [collectResults]. *)
Definition collectResults (early : bool) (acc : list CheckResult) (s : State)
  : option State :=
  match Channel.recv (ch s) with
  | Channel.RecvOk v c => Some (with_orch (OCollect early (acc ++ [v])) (with_ch c s))
  | Channel.RecvClosed => Some (with_orch (OReturn early {| Results := acc |}) s)
  | Channel.RecvBlocks => None
  end.

(** One statement of [runTests]. *)
Definition runTests (s : State) : option State :=
  match orch s with
  | OLoop i =>
      if i <? numChecks then Some (with_orch (OAdd i) s)
      else Some (with_orch (OWait false) s)
  | OAdd i => Some (with_orch (OGo i) (with_wg (wg s + 1) s))
  | OGo i => Some (with_orch (OSelect i) (spawn PGet s))
  | OSelect i =>
      if cancelled s then Some (with_orch (OWait true) s)
      else Some (with_orch (OSleep i) s)
  | OSleep i => Some (with_orch (OLoop (i + 1)) s)
  | OWait early =>
      if wg s =? 0 then Some (with_orch (OClose early) s) else None
  | OClose early =>
      match Channel.close (ch s) with
      | Some c => Some (with_orch (OCollect early []) (with_ch c s))
      | None => Some (crash s)
      end
  | OCollect early acc => collectResults early acc s
  | OReturn _ _ => None
  end.

Definition step (s : State) (a : Action) : option State :=
  if crashed s then None
  else match a with
       | AOrch => runTests s
       | AProbe k =>
           match probes s !! k with
           | Some p => performCheck k p s
           | None => None
           end
       | ACancel => if cancelled s then None else Some (cancel s)
       end.

(** The state in which the loop of [runTests] starts; [make] with a negative
    size panics.  [c0] tells whether the context is already cancelled. *)
Definition init (c0 : bool) : State :=
  {| orch := OLoop 0; probes := []; ch := Channel.make numChecks; wg := 0;
     cancelled := c0; crashed := numChecks <? 0 |}.

Definition returned (s : State) : option TestResult :=
  match orch s with
  | OReturn _ r => Some r
  | _ => None
  end.

End Program.

(** What [main] does with the [TestResult] that [runTests] returned;
    [write_ok] tells whether [ioutil.WriteFile] succeeds. *)
Definition main (write_ok : bool) (testResult : TestResult) : Output :=
  let successfulCount := successfulCount (Results testResult) in
  let successfulPercentage :=
    Fmt.successfulPercentage successfulCount (Z.of_nat (length (Results testResult))) in
  let jsonData := Json.MarshalIndent testResult in
  {| stdout := Fmt.summary_line successfulPercentage;
     file := if write_ok then Some jsonData else None |}.


(** *** Invariants of the reachable states *)

(** Probes whose [wg.Done()] is still to come. *)
Definition live (p : Probe) : nat :=
  match p with PDone _ | PFatal => 0 | _ => 1 end.

(** Probes that still have their send ahead of them. *)
Definition presend (p : Probe) : nat :=
  match p with PGet | PErr | PResp _ | PSend _ => 1 | _ => 0 end.

(** Probes that did send: those that finished without closing a body. *)
Definition sent (p : Probe) : nat :=
  match p with
  | PDefer NoBody | PDefer BodyOpen | PDone NoBody | PDone BodyOpen => 1
  | _ => 0
  end.

(** Between [wg.Add(1)] and the [go] statement the counter is one ahead. *)
Definition go_pending (o : Orch) : Z :=
  match o with OGo _ => 1 | _ => 0 end.

(** The results already received from the channel. *)
Definition collected (o : Orch) : list CheckResult :=
  match o with
  | OCollect _ acc => acc
  | OReturn _ r => Results r
  | _ => []
  end.

Section Invariants.
Variable transport : nat -> HttpOutcome.
Variable numChecks : Z.

(** A body exists exactly when the network answered with a response. *)
Definition body_ok (k : nat) (b : Body) : Prop :=
  match b with
  | NoBody => transport k = TransportErr
  | BodyOpen | BodyClosed => exists status, transport k = Response status
  end.

(** What a probe holds agrees with what the network answered it. *)
Definition probe_ok (k : nat) (p : Probe) : Prop :=
  match p with
  | PGet => True
  | PDefer b | PDone b => body_ok k b
  | PErr => transport k = TransportErr
  | PResp status => transport k = Response status
  | PSend success =>
      exists status, transport k = Response status /\ success = (status =? StatusOK)
  | PPanic | PFatal => False
  end.

(** 1 when the network answers probe [k] with status 200. *)
Definition ok200 (k : nat) : nat :=
  match transport k with
  | Response status => if status =? StatusOK then 1 else 0
  | TransportErr => 0
  end.

Definition live_probes (s : State) : nat := isum (fun _ => live) 0 (probes s).


Definition launched (s : State) : Z := Z.of_nat (length (probes s)).

Definition after_loop (early : bool) (s : State) : Prop :=
  launched s <= numChecks /\
  if early then cancelled s = true else launched s = numChecks.

(** Where the orchestrating goroutine stands fixes how many probes were
    launched, whether the channel is closed, and, past a [wg.Wait()], that no
    probe is live. *)
Definition orch_ok (s : State) : Prop :=
  match orch s with
  | OLoop i =>
      0 <= i <= numChecks /\ launched s = i /\ Channel.closed (ch s) = false
  | OAdd i | OGo i =>
      0 <= i < numChecks /\ launched s = i /\ Channel.closed (ch s) = false
  | OSelect i | OSleep i =>
      0 <= i < numChecks /\ launched s = i + 1 /\ Channel.closed (ch s) = false
  | OWait early => after_loop early s /\ Channel.closed (ch s) = false
  | OClose early =>
      after_loop early s /\ Channel.closed (ch s) = false /\ live_probes s = 0%nat
  | OCollect early _ =>
      after_loop early s /\ Channel.closed (ch s) = true /\ live_probes s = 0%nat
  | OReturn early _ =>
      after_loop early s /\ Channel.closed (ch s) = true /\ live_probes s = 0%nat /\
      Channel.buf (ch s) = []
  end.

Record Inv (s : State) : Prop := {
  inv_crashed : crashed s = false;
  inv_cap : Channel.cap (ch s) = numChecks;
  inv_wg : wg s = Z.of_nat (live_probes s) + go_pending (orch s);
  inv_orch : orch_ok s;
  inv_probe : forall k p, probes s !! k = Some p -> probe_ok k p;
  inv_count :
    (length (Channel.buf (ch s)) + length (collected (orch s))
     + isum (fun _ => presend) 0 (probes s) <= length (probes s))%nat;
  inv_sent :
    (length (collected (orch s)) + length (Channel.buf (ch s))
     = isum (fun _ => sent) 0 (probes s))%nat;
  inv_succ :
    count_true (collected (orch s) ++ Channel.buf (ch s))
    = isum (fun k p => (sent p * ok200 k)%nat) 0 (probes s)
}.

Lemma init_inv_v2 c0 : 0 <= numChecks -> Inv (init numChecks c0).
Proof.
  intros Hn. split; simpl; try done;
    try (unfold orch_ok, launched; simpl; lia);
    destruct (Z.ltb_spec numChecks 0); lia || done.
Qed.

Lemma launched_le_v2 s : Inv s -> launched s <= numChecks.
Proof.
  intros HI. pose proof (inv_orch _ HI) as Ho. unfold orch_ok, after_loop in Ho.
  destruct (orch s); lia.
Qed.

Lemma live_open_v2 s k p :
  orch_ok s -> probes s !! k = Some p -> live p = 1%nat ->
  Channel.closed (ch s) = false.
Proof.
  unfold orch_ok, live_probes. intros Ho Hk Hl.
  destruct (orch s); try tauto;
    destruct Ho as (_ & _ & Hz & _) || destruct Ho as (_ & _ & Hz);
    pose proof (isum_zero _ _ _ _ _ Hz Hk) as Hz'; simpl in Hz'; lia.
Qed.

Lemma step_inv_v2 s a s' :
  Inv s -> step transport numChecks s a = Some s' -> Inv s'.
Proof.
  intros [Hc Hcap Hwg Horch Hprobe Hcount Hsent Hsucc] Hs.
  unfold step in Hs. rewrite Hc in Hs.
  destruct a as [|k|].
  - unfold runTests, collectResults, Channel.close, Channel.recv in Hs.
    unfold orch_ok, after_loop, launched, live_probes in *.
    destruct (orch s) eqn:Eo; simpl in Hs; revert Hs; step_cases.
    all: split; simpl.
    all: unfold orch_ok, after_loop, launched, live_probes in *; simpl in *.
    all: try rewrite length_app in *; try rewrite isum_app in *; simpl in *.
    all: try done.
    all: try lia.
    all: try (intros k p [?|[? [_ <-]%list_lookup_singleton_Some]]%lookup_app_Some; simpl; eauto).
    all: try (repeat split; try tauto; try lia; fail).
    all: try (match goal with H : Channel.buf _ = _ |- _ => rewrite H in * end; simpl in *;
              rewrite <- ?app_assoc, ?app_nil_r in *; simpl; done || lia).
    all: try (rewrite <- app_assoc; simpl; done).
  - destruct (probes s !! k) as [p|] eqn:Hlk; [|done].
    unfold performCheck, send_result, wg_done, Channel.send in Hs.
    pose proof (Hprobe _ _ Hlk) as Hp.
    pose proof (isum_lookup_le (fun _ => live) 0 _ _ _ Hlk) as Hlive.
    destruct p; simpl in Hs, Hp; try done.
    all: pose proof (live_open_v2 _ _ _ Horch Hlk eq_refl) as Hopen; try rewrite Hopen in Hs.
    all: revert Hs; step_cases.
    all: split; simpl; try done.
    all: unfold orch_ok, after_loop, launched, live_probes in *; simpl in *.
    all: rewrite ?length_insert, ?length_app; simpl.
    all: try (intros k' p' [(-> & <- & _)|(? & ?)]%list_lookup_insert_Some; simpl;
              try (destruct Hp as (? & ? & ?)); eauto; fail).
    all: use_insert Hlk.
    all: try lia.
    all: try (destruct (orch s); simpl in *; intuition (try lia; try congruence); fail).
    all: try (destruct (orch s); simpl in *; lia).
    all: rewrite app_assoc, count_true_app; simpl; unfold ok200 in *.
    + rewrite Hp in *. lia.
    + destruct Hp as (st & Ht & ->). rewrite Ht in *.
      destruct (st =? StatusOK); lia.
  - destruct (cancelled s) eqn:Ec; [done|]. revert Hs; intros [= <-].
    split; simpl; try done.
    unfold orch_ok, after_loop, launched, live_probes in *; simpl in *.
    destruct (orch s); try done; destruct early; tauto.
Qed.

(** *** Termination measure and progress *)

Definition probe_mu (p : Probe) : nat :=
  match p with
  | PGet => 5 | PErr | PResp _ => 4 | PSend _ => 3 | PPanic => 2
  | PDefer _ => 1 | PFatal | PDone _ => 0
  end.

Definition orch_mu (o : Orch) : nat :=
  match o with
  | OLoop i => 10 * Z.to_nat (numChecks - i) + 4
  | OAdd i => 10 * Z.to_nat (numChecks - i - 1) + 13
  | OGo i => 10 * Z.to_nat (numChecks - i - 1) + 12
  | OSelect i => 10 * Z.to_nat (numChecks - i - 1) + 6
  | OSleep i => 10 * Z.to_nat (numChecks - i - 1) + 5
  | OWait _ => 3
  | OClose _ => 2
  | OCollect _ _ => 1
  | OReturn _ _ => 0
  end%nat.

Definition mu (s : State) : nat :=
  (orch_mu (orch s) + isum (fun _ => probe_mu) 0 (probes s)
   + length (Channel.buf (ch s))
   + (if cancelled s then 0 else 1) + (if crashed s then 0 else 1))%nat.






Lemma reachable_inv_v2 c0 sched s :
  0 <= numChecks ->
  exec (step transport numChecks) (init numChecks c0) sched = Some s -> Inv s.
Proof.
  intros Hn He.
  eapply (exec_invariant (step transport numChecks) Inv (fun _ => True));
    [| apply init_inv_v2, Hn | | exact He].
  - intros s0 a s1 HI _ Hs. eapply step_inv_v2; eauto.
  - by apply Forall_forall.
Qed.


End Invariants.

Section Runs.
Variable transport : nat -> HttpOutcome.
Variable numChecks : Z.

(** *** Runs in which [cancel()] is never called *)

Definition no_discard (p : Probe) : Prop :=
  match p with PDefer BodyClosed | PDone BodyClosed => False | _ => True end.

Record NoCancel (s : State) : Prop := {
  nc_cancelled : cancelled s = false;
  nc_probes : forall k p, probes s !! k = Some p -> no_discard p
}.

Lemma nc_init : NoCancel (init numChecks false).
Proof. split; simpl; done. Qed.

Lemma nc_step s a s' :
  NoCancel s -> a <> ACancel -> step transport numChecks s a = Some s' -> NoCancel s'.
Proof.
  intros [Hc Hp] Ha. unfold step. destruct (crashed s); [done|].
  destruct a as [|k|]; [| |done].
  - unfold runTests, collectResults, Channel.close, Channel.recv.
    destruct (orch s); simpl; step_cases; split; simpl; try done.
    intros k p [?|[? [_ <-]%list_lookup_singleton_Some]]%lookup_app_Some; simpl; eauto.
  - destruct (probes s !! k) as [p|] eqn:Hlk; [|done].
    unfold performCheck, send_result, wg_done, Channel.send. rewrite Hc.
    destruct p; simpl; step_cases; split; simpl; try done.
    all: try (intros k' p' [(-> & <- & _)|(? & ?)]%list_lookup_insert_Some; simpl; eauto; fail).
    all: try (intros k' p' [(-> & <- & _)|(? & ?)]%list_lookup_insert_Some;
              [apply (Hp _ _ Hlk)|eauto]).
Qed.

(** Every launched probe is done and did send. *)
Lemma all_sent_v2 s :
  Inv transport numChecks s -> live_probes s = 0%nat ->
  (forall k p, probes s !! k = Some p -> no_discard p) ->
  forall k p, probes s !! k = Some p -> sent p = 1%nat.
Proof.
  intros HI Hl Hnd k p Hk.
  pose proof (isum_zero _ _ _ _ _ Hl Hk) as Hz.
  pose proof (inv_probe _ _ _ HI _ _ Hk) as Hok.
  pose proof (Hnd _ _ Hk) as Hd.
  destruct p as [| | | |b| | |b]; simpl in *; try done; destruct b; done.
Qed.

Lemma returned_all s r :
  Inv transport numChecks s -> NoCancel s -> returned s = Some r ->
  length (Results r) = Z.to_nat numChecks /\
  count_true (Results r) = isum (fun k _ => ok200 transport k) 0 (probes s) /\
  length (probes s) = Z.to_nat numChecks.
Proof.
  intros HI [Hc Hnd] Hr. unfold returned in Hr.
  destruct (orch s) as [| | | | | | | |e r'] eqn:Eo; try done.
  injection Hr as ->.
  pose proof (inv_orch _ _ _ HI) as Ho. unfold orch_ok, after_loop, launched in Ho.
  rewrite Eo in Ho. destruct Ho as ((_ & He) & _ & Hl & Hb).
  destruct e; [congruence|].
  pose proof (inv_sent _ _ _ HI) as Hs. pose proof (inv_succ _ _ _ HI) as Hsu.
  rewrite Eo, Hb in Hs, Hsu. simpl in Hs, Hsu. rewrite app_nil_r in Hsu.
  rewrite (isum_ext (fun _ => sent) (fun _ _ => 1%nat)) in Hs
    by (intros; eapply all_sent_v2; eauto).
  rewrite isum_one in Hs.
  rewrite (isum_ext _ (fun k _ => ok200 transport k)) in Hsu
    by (intros j p Hj; simpl; rewrite (all_sent_v2 s HI Hl Hnd _ _ Hj); lia).
  repeat split; [lia|done|lia].
Qed.

(** *** Runs that start with the context already cancelled *)








End Runs.

End V2.

(** ** The claims *)

(** Schedules used to exercise the theorems: every probe is answered with
    status 200, the loop runs to its end, then the probes run one after the
    other, then the results are collected. *)
Definition answers_200 (k : nat) : HttpOutcome := Response 200.


Definition full_run_v1 (n : nat) : list V1.Action :=
  repeat V1.AOrch (5 * n + 1)
  ++ flat_map (fun k => repeat (V1.AProbe k) 3) (seq 0 n)
  ++ repeat V1.AOrch (n + 4).

(** No action of a concrete schedule is the excluded one. *)
Ltac sched_ok :=
  repeat (constructor; [let H := fresh in intros H; discriminate H|]); constructor.



(** One check, and a signal that arrives while its probe is still inside
    [http.Get]: the loop launches the probe, sleeps, finds the signal and
    closes the channel. *)
Definition signal_during_sleep : list V1.Action :=
  [V1.AOrch; V1.AOrch; V1.AOrch; V1.ASignal; V1.AOrch; V1.AOrch; V1.AOrch].

(** C1, first variant: on the signal path [runTests] closes the channel
    before it waits, so a probe that is still in flight sends on a closed
    channel and panics.  At [numChecks = 1], with the signal delivered while
    the probe is inside [http.Get]: the channel is closed with the probe
    still running, the probe then gets its response, and its send panics. *)
Theorem send_on_closed_channel_v1 :
  exists s1 s2 s3,
    exec (V1.step answers_200 1 true) (V1.init 1 false) signal_during_sleep = Some s1 /\
    V1.orch s1 = V1.OStopWait /\
    Channel.closed (V1.ch s1) = true /\
    V1.probes s1 = [V1.PGet] /\
    V1.step answers_200 1 true s1 (V1.AProbe 0) = Some s2 /\
    V1.probes s2 = [V1.PResp 200] /\
    Channel.send {| Success := true |} (V1.ch s2) = Channel.SendPanics /\
    V1.step answers_200 1 true s2 (V1.AProbe 0) = Some s3 /\
    V1.probes s3 = [V1.PPanic].
Proof. do 3 eexists. vm_compute. repeat split. Qed.








(** C10: the channel is made with capacity [numChecks]; at most
    [numChecks] probes are launched; the results sent so far plus the probes
    that still have their send ahead never exceed the number of launched
    probes; so a probe that is about to send while the channel is open finds
    room in the buffer and its send goes through.  Both variants. *)
Theorem send_never_blocks
  (transport : nat -> HttpOutcome) (numChecks : Z) (write_ok : bool)
  (Hn : 0 <= numChecks) :
  (forall c0 sched s,
     exec (V2.step transport numChecks) (V2.init numChecks c0) sched = Some s ->
     Channel.cap (V2.ch s) = numChecks /\
     Z.of_nat (length (V2.probes s)) <= numChecks /\
     (length (Channel.buf (V2.ch s)) + length (V2.collected (V2.orch s))
      + isum (fun _ => V2.presend) 0 (V2.probes s) <= length (V2.probes s))%nat /\
     forall k p v,
       V2.probes s !! k = Some p -> V2.presend p = 1%nat ->
       Channel.closed (V2.ch s) = false ->
       exists c, Channel.send v (V2.ch s) = Channel.SendOk c) /\
  (forall sig0 sched s,
     exec (V1.step transport numChecks write_ok) (V1.init numChecks sig0) sched = Some s ->
     Channel.cap (V1.ch s) = numChecks /\
     Z.of_nat (length (V1.probes s)) <= numChecks /\
     (length (Channel.buf (V1.ch s)) + length (V1.collected (V1.orch s))
      + isum (fun _ => V1.presend) 0 (V1.probes s) <= length (V1.probes s))%nat /\
     forall k p v,
       V1.probes s !! k = Some p -> V1.presend p = 1%nat ->
       Channel.closed (V1.ch s) = false ->
       exists c, Channel.send v (V1.ch s) = Channel.SendOk c).
Proof.
  split.
  - intros c0 sched s He.
    pose proof (V2.reachable_inv_v2 _ _ _ _ _ Hn He) as HI.
    pose proof (V2.inv_count _ _ _ HI) as Hcount.
    pose proof (V2.launched_le_v2 _ _ _ HI) as Hle. unfold V2.launched in Hle.
    pose proof (V2.inv_cap _ _ _ HI) as Hcap.
    repeat split; try done.
    intros k p v Hk Hpre Ho.
    pose proof (isum_lookup_le (fun _ => V2.presend) 0 _ _ _ Hk) as Hsum.
    simpl in Hsum. unfold Channel.send. rewrite Ho.
    destruct (Z.ltb_spec (Z.of_nat (length (Channel.buf (V2.ch s)))) (Channel.cap (V2.ch s)));
      [eauto|lia].
  - intros sig0 sched s He.
    pose proof (V1.reachable_inv_v1 _ _ _ _ _ _ Hn He) as HI.
    pose proof (V1.inv_count _ _ _ _ HI) as Hcount.
    pose proof (V1.launched_le_v1 _ _ _ _ HI) as Hle. unfold V1.launched in Hle.
    pose proof (V1.inv_cap _ _ _ _ HI) as Hcap.
    repeat split; try done.
    intros k p v Hk Hpre Ho.
    pose proof (isum_lookup_le (fun _ => V1.presend) 0 _ _ _ Hk) as Hsum.
    simpl in Hsum. unfold Channel.send. rewrite Ho.
    destruct (Z.ltb_spec (Z.of_nat (length (Channel.buf (V1.ch s)))) (Channel.cap (V1.ch s)));
      [eauto|lia].
Qed.

Lemma send_never_blocks_witness :
  0 <= 1 /\
  exists s c,
    exec (V2.step answers_200 1) (V2.init 1 false)
      [V2.AOrch; V2.AOrch; V2.AOrch; V2.AProbe 0; V2.AProbe 0] = Some s /\
    V2.probes s !! 0%nat = Some (V2.PSend true) /\
    Channel.send {| Success := true |} (V2.ch s) = Channel.SendOk c.
Proof.
  assert (Hn : 0 <= 1) by lia.
  split; [exact Hn|].
  destruct (send_never_blocks answers_200 1 true Hn) as [H _].
  destruct (exec (V2.step answers_200 1) (V2.init 1 false)
              [V2.AOrch; V2.AOrch; V2.AOrch; V2.AProbe 0; V2.AProbe 0]) as [s|] eqn:He;
    [|vm_compute in He; discriminate He].
  destruct (H false _ s He) as (_ & _ & _ & Hsend).
  assert (Hs : V2.probes s !! 0%nat = Some (V2.PSend true)
               /\ Channel.closed (V2.ch s) = false).
  { vm_compute in He. injection He as <-. split; reflexivity. }
  destruct Hs as [Hk Ho].
  destruct (Hsend 0%nat _ {| Success := true |} Hk eq_refl Ho) as [c Hc].
  exists s, c. split; [reflexivity|]. split; [exact Hk|exact Hc].
Defined.

(** The run of C1, continued: the probe panics, runs its deferred
    [wg.Done()], and the runtime aborts the process. *)
Definition signal_then_late_probe : list V1.Action :=
  signal_during_sleep ++ [V1.AProbe 0; V1.AProbe 0; V1.AProbe 0; V1.AProbe 0].

(** C4, first variant: the run in which the signal arrives while the only
    probe is still inside [http.Get] ends with the process dead of the
    probe's panic: [runTests] has not returned (it is still at its
    [wg.Wait()]) and nothing can run any more. *)
Theorem signal_run_aborts_v1 :
  exists s,
    exec (V1.step answers_200 1 true) (V1.init 1 false) signal_then_late_probe = Some s /\
    V1.crashed s = true /\
    V1.orch s = V1.OStopWait /\
    V1.returned s = None /\
    V1.probes s = [V1.PFatal] /\
    forall a, V1.step answers_200 1 true s a = None.
Proof.
  let r := eval vm_compute in
    (exec (V1.step answers_200 1 true) (V1.init 1 false) signal_then_late_probe) in
  lazymatch r with Some ?x => exists x end.
  split; [vm_compute; reflexivity|].
  repeat split.
Qed.




(** A run of the second variant that starts with the context cancelled: the
    loop launches the first probe, finds the context cancelled and waits;
    the probe gets its response and discards it. *)
Definition cancelled_before_start : list V2.Action :=
  repeat V2.AOrch 4 ++ repeat (V2.AProbe 0) 3 ++ repeat V2.AOrch 3.




(** The summary line printed for a percentage that is not a number. *)
Definition nan_line : string :=
  String.append "Процент успешных запросов: NaN%" (String (Ascii.ascii_of_nat 10) "").

(** C6, as stated, fails: the division is not guarded and the summary line
    is printed with [NaN].  With [numChecks = 0] the run returns no result,
    and with [numChecks = 10] and the context cancelled from the start and
    the probe answered with a response it returns no result either; the
    percentage of no result is [0/0], which is not a number, and [main]
    prints it. *)
Lemma empty_run_prints_NaN :
  (exists s,
     exec (V2.step answers_200 0) (V2.init 0 false) (repeat V2.AOrch 4) = Some s /\
     V2.returned s = Some {| Results := [] |}) /\
  (exists s,
     exec (V2.step answers_200 10) (V2.init 10 true) cancelled_before_start = Some s /\
     V2.returned s = Some {| Results := [] |}) /\
  PrimFloat.is_nan (Fmt.successfulPercentage 0 0) = true /\
  stdout (V2.main true {| Results := [] |}) = nan_line.
Proof.
  split; [eexists; vm_compute; split; reflexivity|].
  split; [eexists; vm_compute; split; reflexivity|].
  split; vm_compute; reflexivity.
Qed.

(** C6, amended: when the run ends with no collected result the percentage
    is computed without a guard: [float64(0) / float64(0) * 100] is not a
    number, nothing panics, and the summary line is printed with [NaN].
    This is what [main] of the second variant prints for an empty
    [TestResult], and what [runTests] of the first variant prints whenever
    it reports an empty [TestResult] (which happens for [numChecks = 0]
    only). *)
Theorem zero_results_print_NaN (write_ok : bool) :
  stdout (V2.main write_ok {| Results := [] |}) = nan_line /\
  stdout (V1.report 0 write_ok {| Results := [] |}) = nan_line /\
  (forall transport numChecks sig0 sched s r out,
     0 <= numChecks ->
     exec (V1.step transport numChecks write_ok) (V1.init numChecks sig0) sched = Some s ->
     V1.returned s = Some (Some (r, out)) ->
     Results r = [] ->
     numChecks = 0 /\ stdout out = nan_line).
Proof.
  split; [vm_compute; reflexivity|]. split; [vm_compute; reflexivity|].
  intros transport numChecks sig0 sched s r out Hn He Hr Hnil.
  pose proof (V1.reachable_inv_v1 _ _ _ _ _ _ Hn He) as HI.
  destruct (V1.done_all _ _ _ _ _ _ HI Hr) as (Hl & _ & _ & ->).
  rewrite Hnil in Hl. simpl in Hl.
  assert (numChecks = 0) as -> by lia.
  split; [done|]. destruct r as [rs]. simpl in Hnil. subst rs.
  vm_compute. reflexivity.
Qed.

Lemma zero_results_print_NaN_witness :
  0 <= 0 /\
  exists s r out,
    exec (V1.step answers_200 0 true) (V1.init 0 false) (repeat V1.AOrch 5) = Some s /\
    V1.returned s = Some (Some (r, out)) /\ Results r = [] /\ stdout out = nan_line.
Proof.
  assert (Hn : 0 <= 0) by lia.
  split; [exact Hn|].
  destruct (zero_results_print_NaN true) as (_ & _ & H).
  destruct (exec (V1.step answers_200 0 true) (V1.init 0 false) (repeat V1.AOrch 5))
    as [s|] eqn:He; [|vm_compute in He; discriminate He].
  assert (Er : exists out, V1.returned s = Some (Some ({| Results := [] |}, out))).
  { vm_compute in He. injection He as <-. eexists; reflexivity. }
  destruct Er as [out Er].
  destruct (H answers_200 0 false _ s _ out Hn He Er eq_refl) as [_ Hout].
  exists s, {| Results := [] |}, out.
  split; [reflexivity|]. split; [exact Er|]. split; [reflexivity|exact Hout].
Defined.

(** A failed request that comes back after [cancel()]: second variant. *)
Definition answers_error (k : nat) : HttpOutcome := TransportErr.

Definition error_after_cancel : list V2.Action :=
  [V2.AOrch; V2.AOrch; V2.AOrch; V2.ACancel; V2.AProbe 0; V2.AProbe 0].

(** A response that comes back after the signal: first variant. *)
Definition response_after_signal : list V1.Action :=
  [V1.AOrch; V1.AOrch; V1.AOrch; V1.ASignal; V1.AProbe 0; V1.AProbe 0].

(** C7, as stated, fails.  Second variant: a probe whose request fails after
    the context was cancelled still sends [Success = false], and the run
    returns it.  First variant: a probe never polls anything, so a response
    that arrives after the signal is sent as well. *)
Lemma late_result_is_reported :
  (exists s s',
     exec (V2.step answers_error 1) (V2.init 1 false) error_after_cancel = Some s /\
     V2.cancelled s = true /\
     Channel.buf (V2.ch s) = [{| Success := false |}] /\
     exec (V2.step answers_error 1) s (V2.AProbe 0 :: repeat V2.AOrch 5) = Some s' /\
     V2.returned s' = Some {| Results := [{| Success := false |}] |}) /\
  (exists s,
     exec (V1.step answers_200 1 true) (V1.init 1 false) response_after_signal = Some s /\
     V1.stop s = true /\
     Channel.buf (V1.ch s) = [{| Success := true |}]).
Proof.
  split.
  - do 2 eexists. vm_compute. repeat split.
  - eexists. vm_compute. repeat split.
Qed.

(** Program points of a probe that got its response under cancellation. *)
Definition discarding (status : Z) (p : V2.Probe) : Prop :=
  p = V2.PGet \/ p = V2.PResp status \/ p = V2.PDefer BodyClosed \/ p = V2.PDone BodyClosed.

Lemma discarding_step transport numChecks k status s a s' :
  transport k = Response status ->
  V2.cancelled s = true ->
  (exists p, V2.probes s !! k = Some p /\ discarding status p) ->
  V2.step transport numChecks s a = Some s' ->
  V2.cancelled s' = true /\
  (exists p, V2.probes s' !! k = Some p /\ discarding status p).
Proof.
  intros Ht Hc (p & Hk & Hd). unfold V2.step. destruct (V2.crashed s); [done|].
  destruct a as [|j|].
  - unfold V2.runTests, V2.collectResults, Channel.close, Channel.recv.
    destruct (V2.orch s); simpl; step_cases; simpl; split; try done; eauto.
    exists p. split; [|done]. apply lookup_app_l_Some. done.
  - destruct (V2.probes s !! j) as [q|] eqn:Hj; [|done].
    unfold V2.performCheck, V2.send_result, V2.wg_done, Channel.send. rewrite Hc.
    destruct (decide (j = k)) as [->|Hne].
    + rewrite Hk in Hj. injection Hj as <-.
      assert (Hlt : (k < length (V2.probes s))%nat) by (eapply lookup_lt_Some; eauto).
      unfold discarding in *.
      destruct Hd as [-> | [-> | [-> | ->]]]; simpl; rewrite ?Ht; step_cases; simpl;
        (split; [done|]); rewrite ?list_lookup_insert_eq by done; eauto 10.
    + destruct q; simpl; step_cases; simpl; (split; [done|]);
        rewrite ?list_lookup_insert_ne by done; eauto.
  - rewrite Hc. done.
Qed.

(** C7, amended: in the variant whose probes poll the context, a probe that
    is still inside [http.Get] when the context is cancelled and whose call
    then returns a response never sends: from then on the context stays
    cancelled, the probe only moves through the [select], the closing of the
    body and its deferred [wg.Done()], and none of its steps changes the
    channel or the orchestrator; its step after the response closes the
    body. *)
Theorem response_after_cancel_is_discarded
  (transport : nat -> HttpOutcome) (numChecks : Z) (k : nat) (status : Z)
  (s : V2.State) (sched : list V2.Action) (s' : V2.State)
  (Ht : transport k = Response status)
  (Hc : V2.cancelled s = true)
  (Hk : V2.probes s !! k = Some V2.PGet)
  (He : exec (V2.step transport numChecks) s sched = Some s') :
  V2.cancelled s' = true /\
  (exists p, V2.probes s' !! k = Some p /\ discarding status p) /\
  (forall s2,
     V2.step transport numChecks s' (V2.AProbe k) = Some s2 ->
     V2.ch s2 = V2.ch s' /\ V2.orch s2 = V2.orch s' /\
     (V2.probes s' !! k = Some (V2.PResp status) ->
      V2.probes s2 !! k = Some (V2.PDefer BodyClosed))).
Proof.
  assert (HD : V2.cancelled s' = true /\
               exists p, V2.probes s' !! k = Some p /\ discarding status p).
  { eapply (exec_invariant (V2.step transport numChecks)
              (fun x => V2.cancelled x = true /\
                        exists p, V2.probes x !! k = Some p /\ discarding status p)
              (fun _ => True));
      [| | by apply Forall_forall | exact He].
    - intros s0 a s1 [H0 H1] _ Hs. eapply discarding_step; eauto.
    - split; [done|]. exists V2.PGet. split; [done|]. by left. }
  destruct HD as [Hc' (p & Hk' & Hd)]. split; [done|]. split; [eauto|].
  intros s2. unfold V2.step. destruct (V2.crashed s'); [done|]. rewrite Hk'.
  assert (Hlt : (k < length (V2.probes s'))%nat) by (eapply lookup_lt_Some; eauto).
  unfold V2.performCheck, V2.send_result, V2.wg_done, Channel.send. rewrite Hc'.
  destruct Hd as [-> | [-> | [-> | ->]]]; simpl; rewrite ?Ht; step_cases; simpl;
    repeat split; try done.
  intros _. by rewrite list_lookup_insert_eq.
Qed.

Lemma response_after_cancel_is_discarded_witness :
  exists s s' s2,
    exec (V2.step answers_200 1) (V2.init 1 false)
      [V2.AOrch; V2.AOrch; V2.AOrch; V2.ACancel] = Some s /\
    exec (V2.step answers_200 1) s [V2.AProbe 0] = Some s' /\
    V2.step answers_200 1 s' (V2.AProbe 0) = Some s2 /\
    V2.ch s2 = V2.ch s' /\
    V2.probes s2 !! 0%nat = Some (V2.PDefer BodyClosed).
Proof.
  let r := eval vm_compute in
    (exec (V2.step answers_200 1) (V2.init 1 false)
       [V2.AOrch; V2.AOrch; V2.AOrch; V2.ACancel]) in
  lazymatch r with Some ?x => pose (s := x) end.
  let r := eval vm_compute in (exec (V2.step answers_200 1) s [V2.AProbe 0]) in
  lazymatch r with Some ?x => pose (s' := x) end.
  let r := eval vm_compute in (V2.step answers_200 1 s' (V2.AProbe 0)) in
  lazymatch r with Some ?x => pose (s2 := x) end.
  exists s, s', s2.
  pose proof (response_after_cancel_is_discarded answers_200 1 0%nat 200
                s [V2.AProbe 0] s' eq_refl eq_refl eq_refl eq_refl)
    as (_ & _ & H).
  destruct (H s2 eq_refl) as (Hch & _ & Hp).
  split; [reflexivity|]. split; [reflexivity|]. split; [reflexivity|].
  split; [exact Hch|exact (Hp eq_refl)].
Defined.

(** Status 200 for the probes launched at even positions, 500 for the
    others. *)
Definition alternating (k : nat) : HttpOutcome :=
  if Nat.even k then Response 200 else Response 500.





(** C9: the JSON document written for a [TestResult], compact as in the
    first variant or indented as in the second, parses back to a
    [TestResult] with the same number of results and the same number of
    results whose [Success] is [true] (indeed to the same [TestResult]). *)
Theorem json_round_trip (t : TestResult) :
  (exists t',
     Json.Unmarshal (Json.Marshal t) = Some t' /\
     length (Results t') = length (Results t) /\
     count_true (Results t') = count_true (Results t)) /\
  (exists t',
     Json.Unmarshal (Json.MarshalIndent t) = Some t' /\
     length (Results t') = length (Results t) /\
     count_true (Results t') = count_true (Results t)) /\
  Json.Unmarshal (Json.Marshal t) = Some t /\
  Json.Unmarshal (Json.MarshalIndent t) = Some t /\
  (forall write_ok,
     file (V2.main write_ok t) = (if write_ok then Some (Json.MarshalIndent t) else None) /\
     forall numChecks,
       file (V1.report numChecks write_ok t)
       = (if write_ok then Some (Json.Marshal t) else None)).
Proof.
  pose proof (Json.Unmarshal_Marshal t) as Hm.
  pose proof (Json.Unmarshal_MarshalIndent t) as Hi.
  repeat split; eauto.
Qed.


(** ** Further properties of the two programs *)

Lemma isum_plus {A} (f g : nat -> A -> nat) k (l : list A) :
  isum (fun j p => (f j p + g j p)%nat) k l = (isum f k l + isum g k l)%nat.
Proof. revert k. induction l as [|x l IH]; intros k; simpl; [done|]. rewrite IH. lia. Qed.

Lemma isum_index {A} (g : nat -> nat) k (l : list A) :
  isum (fun j _ => g j) k l = sum_list (map g (seq k (length l))).
Proof. revert k. induction l as [|x l IH]; intros k; simpl; [done|]. by rewrite IH. Qed.

(** *** Every launched probe is accounted for *)

(** Probes that closed the body of their response instead of sending. *)
Definition discarded (p : V2.Probe) : nat :=
  match p with V2.PDefer BodyClosed | V2.PDone BodyClosed => 1 | _ => 0 end.

Lemma sent_or_discarded transport numChecks s :
  V2.Inv transport numChecks s -> V2.live_probes s = 0%nat ->
  forall k p, V2.probes s !! k = Some p -> (V2.sent p + discarded p = 1)%nat.
Proof.
  intros HI Hl k p Hk.
  pose proof (isum_zero _ _ _ _ _ Hl Hk) as Hz.
  pose proof (V2.inv_probe _ _ _ HI _ _ Hk) as Hok.
  destruct p as [| | | |b| | |b]; simpl in *; try done; destruct b; done.
Qed.

(** When the second [runTests] returns, under any interleaving and with
    cancellation at any point, every launched probe either has its result
    in the returned [Results] or closed its response body: nothing is lost
    or duplicated.  So the number of results is at most the number of
    launched probes, which is at most [numChecks], and the successes among
    them are at most the launched probes answered with status 200. *)
Theorem results_account_for_probes_v2
  (transport : nat -> HttpOutcome) (numChecks : Z) (c0 : bool) sched s r
  (Hn : 0 <= numChecks)
  (He : exec (V2.step transport numChecks) (V2.init numChecks c0) sched = Some s)
  (Hr : V2.returned s = Some r) :
  (length (Results r) + isum (fun _ => discarded) 0 (V2.probes s)
   = length (V2.probes s))%nat /\
  Z.of_nat (length (V2.probes s)) <= numChecks /\
  (count_true (Results r)
   <= isum (fun k _ => V2.ok200 transport k) 0 (V2.probes s))%nat /\
  (count_true (Results r) <= length (Results r))%nat.
Proof.
  pose proof (V2.reachable_inv_v2 _ _ _ _ _ Hn He) as HI.
  pose proof (V2.launched_le_v2 _ _ _ HI) as Hle. unfold V2.launched in Hle.
  pose proof (V2.inv_orch _ _ _ HI) as Ho.
  pose proof (V2.inv_sent _ _ _ HI) as Hs.
  pose proof (V2.inv_succ _ _ _ HI) as Hsu.
  unfold V2.returned in Hr. unfold V2.orch_ok in Ho.
  destruct (V2.orch s) as [| | | | | | | |e r'] eqn:Eo; try done.
  injection Hr as ->. destruct Ho as (_ & _ & Hl & Hb).
  rewrite Hb in Hs, Hsu. simpl in Hs, Hsu. rewrite app_nil_r in Hsu.
  assert (Hone : (isum (fun _ => V2.sent) 0 (V2.probes s)
                  + isum (fun _ => discarded) 0 (V2.probes s)
                  = length (V2.probes s))%nat).
  { rewrite <- isum_plus, <- (isum_one 0 (V2.probes s)).
    apply isum_ext. intros j p Hj. eapply sent_or_discarded; eauto. }
  split; [lia|]. split; [exact Hle|]. split; [|apply count_true_le].
  rewrite Hsu. apply isum_le. intros j p Hj. simpl.
  assert (V2.sent p <= 1)%nat by (destruct p as [| | | |[]| | |[]]; simpl; lia).
  nia.
Qed.

(** A run of the second variant in which the first probe reports, then
    [cancel()] is called while the second is in flight. *)
Definition cancel_after_first : list V2.Action :=
  repeat V2.AOrch 5 ++ repeat (V2.AProbe 0) 4 ++ repeat V2.AOrch 3
  ++ [V2.ACancel; V2.AOrch] ++ repeat (V2.AProbe 1) 3 ++ repeat V2.AOrch 4.

Lemma results_account_for_probes_v2_witness :
  0 <= 2 /\
  exists s r,
    exec (V2.step answers_200 2) (V2.init 2 false) cancel_after_first = Some s /\
    V2.returned s = Some r /\
    length (Results r) = 1%nat /\
    isum (fun _ => discarded) 0 (V2.probes s) = 1%nat /\
    length (V2.probes s) = 2%nat.
Proof.
  assert (Hn : 0 <= 2) by lia.
  split; [exact Hn|].
  let r := eval vm_compute in
    (exec (V2.step answers_200 2) (V2.init 2 false) cancel_after_first) in
  lazymatch r with Some ?x => pose (s := x) end.
  let v := eval vm_compute in (V2.returned s) in
  lazymatch v with Some ?x => pose (r := x) end.
  assert (He : exec (V2.step answers_200 2) (V2.init 2 false) cancel_after_first = Some s)
    by (vm_compute; reflexivity).
  assert (Hr : V2.returned s = Some r) by reflexivity.
  pose proof (results_account_for_probes_v2 answers_200 2 false _ s r Hn He Hr)
    as (Hacc & _).
  exists s, r. split; [exact He|]. split; [exact Hr|].
  split; [reflexivity|]. split; [reflexivity|]. reflexivity.
Defined.

(** *** The collection loop *)

(** From [close(results)] on, what is already collected followed by what is
    still buffered stays the same list. *)
Definition draining_v2 (l : list CheckResult) (s : V2.State) : Prop :=
  match V2.orch s with
  | V2.OClose _ | V2.OCollect _ _ | V2.OReturn _ _ =>
      V2.collected (V2.orch s) ++ Channel.buf (V2.ch s) = l
  | _ => False
  end.

Lemma draining_step_v2 transport numChecks l s a s' :
  V2.Inv transport numChecks s -> draining_v2 l s ->
  V2.step transport numChecks s a = Some s' -> draining_v2 l s'.
Proof.
  intros HI Hd. unfold V2.step. destruct (V2.crashed s); [done|].
  pose proof (V2.inv_orch _ _ _ HI) as Ho. unfold V2.orch_ok in Ho.
  unfold draining_v2 in *.
  destruct a as [|k|].
  - unfold V2.runTests, V2.collectResults, Channel.close, Channel.recv.
    destruct (V2.orch s) eqn:Eo; try done; simpl in *; step_cases; simpl;
      rewrite ?Eo; simpl; try done.
    all: try match goal with H : Channel.buf _ = _ |- _ => rewrite H in Hd end.
    all: rewrite <- ?app_assoc, ?app_nil_r in *; simpl; try done.
    all: match goal with H : Channel.buf _ = _ |- _ => rewrite H end.
    all: by rewrite app_nil_r.
  - destruct (V2.probes s !! k) as [p|] eqn:Hk; [|done].
    assert (Hl : V2.live_probes s = 0%nat) by (destruct (V2.orch s); try done; tauto).
    pose proof (isum_zero _ _ _ _ _ Hl Hk) as Hz.
    pose proof (V2.inv_probe _ _ _ HI _ _ Hk) as Hok.
    destruct p; simpl in *; done.
  - destruct (V2.cancelled s); [done|]. intros [= <-]. done.
Qed.

Definition draining_v1 (l : list CheckResult) (s : V1.State) : Prop :=
  match V1.orch s with
  | V1.OClose | V1.OCollect _ | V1.OReport _ | V1.ODone _ _ =>
      V1.collected (V1.orch s) ++ Channel.buf (V1.ch s) = l
  | _ => False
  end.

Lemma draining_step_v1 transport numChecks write_ok l s a s' :
  V1.Inv transport numChecks write_ok s -> draining_v1 l s ->
  V1.step transport numChecks write_ok s a = Some s' -> draining_v1 l s'.
Proof.
  intros HI Hd. unfold V1.step. destruct (V1.crashed s); [done|].
  pose proof (V1.inv_orch _ _ _ _ HI) as Ho. unfold V1.orch_ok in Ho.
  unfold draining_v1 in *.
  destruct a as [|k|].
  - unfold V1.runTests, Channel.close, Channel.recv.
    destruct (V1.orch s) eqn:Eo; try done; simpl in *; step_cases; simpl;
      rewrite ?Eo; simpl; try done.
    all: try match goal with H : Channel.buf _ = _ |- _ => rewrite H in Hd end.
    all: rewrite <- ?app_assoc, ?app_nil_r in *; simpl; try done.
    all: match goal with H : Channel.buf _ = _ |- _ => rewrite H end.
    all: by rewrite app_nil_r.
  - destruct (V1.probes s !! k) as [p|] eqn:Hk; [|done].
    assert (Hl : V1.live_probes s = 0%nat) by (destruct (V1.orch s); try done; tauto).
    pose proof (isum_zero _ _ _ _ _ Hl Hk) as Hz.
    assert (Hc : V1.Clean transport s)
      by (apply (V1.inv_clean _ _ _ _ HI); destruct (V1.orch s); done).
    pose proof (V1.clean_probes _ _ Hc _ _ Hk) as Hok.
    destruct p; simpl in *; done.
  - destruct (V1.stop s); [done|]. intros [= <-]. done.
Qed.

(** The collection loop ([collectResults] in the second variant, the
    [range] loop of [runTests] in the first) hands over exactly what the
    channel holds when it is closed after the wait, in channel order: no
    result is dropped, repeated or reordered, whatever else is scheduled in
    between. *)
Theorem collect_returns_buffer
  (transport : nat -> HttpOutcome) (numChecks : Z) (write_ok : bool)
  (Hn : 0 <= numChecks) :
  (forall c0 sched s early sched' s' r,
     exec (V2.step transport numChecks) (V2.init numChecks c0) sched = Some s ->
     V2.orch s = V2.OClose early ->
     exec (V2.step transport numChecks) s sched' = Some s' ->
     V2.returned s' = Some r ->
     Results r = Channel.buf (V2.ch s)) /\
  (forall sig0 sched s sched' s' r out,
     exec (V1.step transport numChecks write_ok) (V1.init numChecks sig0) sched = Some s ->
     V1.orch s = V1.OClose ->
     exec (V1.step transport numChecks write_ok) s sched' = Some s' ->
     V1.returned s' = Some (Some (r, out)) ->
     Results r = Channel.buf (V1.ch s)).
Proof.
  split.
  - intros c0 sched s early sched' s' r He Ho He' Hr.
    pose proof (V2.reachable_inv_v2 _ _ _ _ _ Hn He) as HI.
    assert (HD : V2.Inv transport numChecks s' /\ draining_v2 (Channel.buf (V2.ch s)) s').
    { eapply (exec_invariant (V2.step transport numChecks)
                (fun x => V2.Inv transport numChecks x
                          /\ draining_v2 (Channel.buf (V2.ch s)) x) (fun _ => True));
        [| | by apply Forall_forall | exact He'].
      - intros s0 a s1 [H0 H1] _ Hs. split.
        + eapply V2.step_inv_v2; eauto.
        + eapply draining_step_v2; eauto.
      - split; [done|]. unfold draining_v2. rewrite Ho. done. }
    destruct HD as [HI' HD]. unfold draining_v2, V2.returned in *.
    pose proof (V2.inv_orch _ _ _ HI') as Ho'. unfold V2.orch_ok in Ho'.
    destruct (V2.orch s'); try done. injection Hr as ->.
    destruct Ho' as (_ & _ & _ & Hb). rewrite Hb, app_nil_r in HD. done.
  - intros sig0 sched s sched' s' r out He Ho He' Hr.
    pose proof (V1.reachable_inv_v1 _ _ _ _ _ _ Hn He) as HI.
    assert (HD : V1.Inv transport numChecks write_ok s'
                 /\ draining_v1 (Channel.buf (V1.ch s)) s').
    { eapply (exec_invariant (V1.step transport numChecks write_ok)
                (fun x => V1.Inv transport numChecks write_ok x
                          /\ draining_v1 (Channel.buf (V1.ch s)) x) (fun _ => True));
        [| | by apply Forall_forall | exact He'].
      - intros s0 a s1 [H0 H1] _ Hs. split.
        + eapply V1.step_inv_v1; eauto.
        + eapply draining_step_v1; eauto.
      - split; [done|]. unfold draining_v1. rewrite Ho. done. }
    destruct HD as [HI' HD]. unfold draining_v1, V1.returned in *.
    pose proof (V1.inv_orch _ _ _ _ HI') as Ho'. unfold V1.orch_ok in Ho'.
    destruct (V1.orch s'); try done. injection Hr as -> ->.
    destruct Ho' as (_ & _ & _ & Hb & _). rewrite Hb, app_nil_r in HD. done.
Qed.

(** Two checks; the probe launched second sends first. *)
Definition second_sends_first : list V2.Action :=
  repeat V2.AOrch 11 ++ repeat (V2.AProbe 1) 4 ++ repeat (V2.AProbe 0) 4 ++ [V2.AOrch].

Lemma collect_returns_buffer_witness :
  0 <= 2 /\
  exists s s' r,
    exec (V2.step alternating 2) (V2.init 2 false) second_sends_first = Some s /\
    V2.orch s = V2.OClose false /\
    exec (V2.step alternating 2) s (repeat V2.AOrch 4) = Some s' /\
    V2.returned s' = Some r /\
    Results r = Channel.buf (V2.ch s) /\
    Results r = [{| Success := false |}; {| Success := true |}].
Proof.
  assert (Hn : 0 <= 2) by lia.
  split; [exact Hn|].
  destruct (collect_returns_buffer alternating 2 true Hn) as [H _].
  let v := eval vm_compute in
    (exec (V2.step alternating 2) (V2.init 2 false) second_sends_first) in
  lazymatch v with Some ?x => pose (s := x) end.
  let v := eval vm_compute in (exec (V2.step alternating 2) s (repeat V2.AOrch 4)) in
  lazymatch v with Some ?x => pose (s' := x) end.
  let v := eval vm_compute in (V2.returned s') in
  lazymatch v with Some ?x => pose (r := x) end.
  assert (He : exec (V2.step alternating 2) (V2.init 2 false) second_sends_first = Some s)
    by (vm_compute; reflexivity).
  assert (He' : exec (V2.step alternating 2) s (repeat V2.AOrch 4) = Some s')
    by (vm_compute; reflexivity).
  exists s, s', r. split; [exact He|]. split; [reflexivity|]. split; [exact He'|].
  split; [reflexivity|]. split; [|reflexivity].
  exact (H false _ s false _ s' r He eq_refl He' eq_refl).
Defined.

(** *** The results do not depend on the interleaving *)

(** The result a probe reports when it reports at all. *)
Definition outcome (transport : nat -> HttpOutcome) (k : nat) : CheckResult :=
  match transport k with
  | Response status => {| Success := status =? StatusOK |}
  | TransportErr => {| Success := false |}
  end.

Lemma perm_by_count (l : list CheckResult) :
  Permutation l
    (repeat {| Success := true |} (count_true l)
     ++ repeat {| Success := false |} (length l - count_true l)).
Proof.
  induction l as [|[[]] l IH]; simpl; [constructor| |].
  - pose proof (count_true_le l). by constructor.
  - pose proof (count_true_le l).
    replace (S (length l) - count_true l)%nat with (S (length l - count_true l)) by lia.
    simpl. by apply Permutation_cons_app.
Qed.

Lemma perm_of_counts (l1 l2 : list CheckResult) :
  length l1 = length l2 -> count_true l1 = count_true l2 -> Permutation l1 l2.
Proof.
  intros Hl Hc. rewrite (perm_by_count l1), (perm_by_count l2), Hl, Hc. done.
Qed.

Lemma count_true_perm (l1 l2 : list CheckResult) :
  Permutation l1 l2 -> count_true l1 = count_true l2.
Proof.
  induction 1 as [|x l l' _ IH|x y l|l l' l'' _ IH1 _ IH2]; simpl; try lia.
Qed.

Lemma count_outcomes transport j n :
  count_true (map (outcome transport) (seq j n))
  = sum_list (map (V2.ok200 transport) (seq j n)).
Proof.
  revert j. induction n as [|n IH]; intros j; simpl; [done|].
  rewrite IH. unfold outcome, V2.ok200.
  destruct (transport j) as [|status]; simpl; [done|]. by destruct (status =? StatusOK).
Qed.

(** Without cancellation the collected results are, up to their order, the
    outcomes of the probes launched first to last: a response with status
    200 counts as a success, any other response and any failed request as a
    failure.  So two runs that differ only in their interleaving return the
    same results up to order.  Both variants. *)
Theorem results_are_the_outcomes
  (transport : nat -> HttpOutcome) (numChecks : Z) (write_ok : bool)
  (Hn : 0 <= numChecks) :
  (forall sched s r,
     Forall (fun a => a <> V2.ACancel) sched ->
     exec (V2.step transport numChecks) (V2.init numChecks false) sched = Some s ->
     V2.returned s = Some r ->
     Permutation (Results r) (map (outcome transport) (seq 0 (Z.to_nat numChecks)))) /\
  (forall sig0 sched s r out,
     exec (V1.step transport numChecks write_ok) (V1.init numChecks sig0) sched = Some s ->
     V1.returned s = Some (Some (r, out)) ->
     Permutation (Results r) (map (outcome transport) (seq 0 (Z.to_nat numChecks)))).
Proof.
  split.
  - intros sched s r Hok He Hr.
    pose proof (V2.reachable_inv_v2 _ _ _ _ _ Hn He) as HI.
    assert (HN : V2.NoCancel s).
    { eapply (exec_invariant (V2.step transport numChecks) V2.NoCancel);
        [| apply V2.nc_init | exact Hok | exact He].
      intros s0 a s1 H0 Ha Hs. eapply V2.nc_step; eauto. }
    destruct (V2.returned_all _ _ _ _ HI HN Hr) as (Hl & Hc & Hp).
    apply perm_of_counts.
    + by rewrite length_map, length_seq.
    + by rewrite Hc, isum_index, Hp, count_outcomes.
  - intros sig0 sched s r out He Hr.
    pose proof (V1.reachable_inv_v1 _ _ _ _ _ _ Hn He) as HI.
    destruct (V1.done_all _ _ _ _ _ _ HI Hr) as (Hl & Hc & Hp & _).
    apply perm_of_counts.
    + by rewrite length_map, length_seq.
    + rewrite Hc, isum_index, Hp, count_outcomes. done.
Qed.

Lemma results_are_the_outcomes_witness :
  0 <= 2 /\
  exists s r,
    exec (V2.step alternating 2) (V2.init 2 false)
      (second_sends_first ++ repeat V2.AOrch 4) = Some s /\
    V2.returned s = Some r /\
    Results r = [{| Success := false |}; {| Success := true |}] /\
    Permutation (Results r) [{| Success := true |}; {| Success := false |}].
Proof.
  assert (Hn : 0 <= 2) by lia.
  split; [exact Hn|].
  destruct (results_are_the_outcomes alternating 2 true Hn) as [H _].
  let v := eval vm_compute in
    (exec (V2.step alternating 2) (V2.init 2 false)
       (second_sends_first ++ repeat V2.AOrch 4)) in
  lazymatch v with Some ?x => pose (s := x) end.
  let v := eval vm_compute in (V2.returned s) in
  lazymatch v with Some ?x => pose (r := x) end.
  assert (He : exec (V2.step alternating 2) (V2.init 2 false)
                 (second_sends_first ++ repeat V2.AOrch 4) = Some s)
    by (vm_compute; reflexivity).
  assert (Hok : Forall (fun a => a <> V2.ACancel) (second_sends_first ++ repeat V2.AOrch 4))
    by (vm_compute; sched_ok).
  exists s, r. split; [exact He|]. split; [reflexivity|]. split; [reflexivity|].
  exact (H _ s r Hok He eq_refl).
Defined.

(** *** The summary does not depend on the order of the results *)

(** The counting loop and the summary line of both variants, and the
    number of results, are the same for two collections that hold the same
    results in a different order: the order in which the probes happened to
    report does not show in the percentage. *)
Theorem summary_ignores_order (write_ok : bool) (numChecks : Z)
  (rs rs' : list CheckResult) (Hp : Permutation rs rs') :
  successfulCount rs = successfulCount rs' /\
  stdout (V2.main write_ok {| Results := rs |})
  = stdout (V2.main write_ok {| Results := rs' |}) /\
  stdout (V1.report numChecks write_ok {| Results := rs |})
  = stdout (V1.report numChecks write_ok {| Results := rs' |}).
Proof.
  assert (Hc : successfulCount rs = successfulCount rs')
    by (rewrite !successfulCount_count; f_equal; by apply count_true_perm).
  split; [exact Hc|]. unfold V2.main, V1.report. simpl.
  rewrite Hc, (Permutation_length Hp). done.
Qed.

Lemma summary_ignores_order_witness :
  Permutation [{| Success := true |}; {| Success := false |}]
              [{| Success := false |}; {| Success := true |}] /\
  stdout (V2.main true {| Results := [{| Success := true |}; {| Success := false |}] |})
  = stdout (V2.main true {| Results := [{| Success := false |}; {| Success := true |}] |}).
Proof.
  assert (Hp : Permutation [{| Success := true |}; {| Success := false |}]
                           [{| Success := false |}; {| Success := true |}])
    by apply perm_swap.
  split; [exact Hp|].
  exact (proj1 (proj2 (summary_ignores_order true 2 _ _ Hp))).
Defined.

(** *** Cancellation stops the launches *)

(** With [m] probes launched when the cancellation became visible: the loop
    may be committed to one more launch, and then finds the cancellation. *)
Definition winding_down_v2 (m : nat) (s : V2.State) : Prop :=
  V2.cancelled s = true /\
  match V2.orch s with
  | V2.OLoop _ | V2.OAdd _ | V2.OGo _ | V2.OSleep _ => (length (V2.probes s) <= m)%nat
  | _ => (length (V2.probes s) <= m + 1)%nat
  end.

Lemma winding_down_step_v2 transport numChecks m s a s' :
  winding_down_v2 m s -> V2.step transport numChecks s a = Some s' ->
  winding_down_v2 m s'.
Proof.
  intros [Hc Hm]. unfold V2.step, winding_down_v2. destruct (V2.crashed s); [done|].
  destruct a as [|k|].
  - unfold V2.runTests, V2.collectResults, Channel.close, Channel.recv. rewrite Hc.
    destruct (V2.orch s) eqn:Eo; simpl; step_cases; simpl; rewrite ?Eo, ?length_app;
      simpl; split; try done; lia.
  - destruct (V2.probes s !! k) as [p|] eqn:Hk; [|done].
    unfold V2.performCheck, V2.send_result, V2.wg_done, Channel.send.
    destruct p; simpl; step_cases; simpl; rewrite ?length_insert; done.
  - rewrite Hc. done.
Qed.

(** In the first variant a buffered signal plays the same part, until the
    [select] takes it. *)
Definition winding_down_v1 (m : nat) (s : V1.State) : Prop :=
  match V1.orch s with
  | V1.OLoop _ | V1.OAdd _ | V1.OGo _ =>
      V1.stop s = true /\ (length (V1.probes s) <= m)%nat
  | V1.OSleep _ | V1.OSelect _ =>
      V1.stop s = true /\ (length (V1.probes s) <= m + 1)%nat
  | _ => (length (V1.probes s) <= m + 1)%nat
  end.

Lemma winding_down_step_v1 transport numChecks write_ok m s a s' :
  winding_down_v1 m s -> V1.step transport numChecks write_ok s a = Some s' ->
  winding_down_v1 m s'.
Proof.
  intros Hm. unfold V1.step, winding_down_v1 in *. destruct (V1.crashed s); [done|].
  destruct a as [|k|].
  - unfold V1.runTests, Channel.close, Channel.recv.
    destruct (V1.orch s) eqn:Eo; simpl; try destruct Hm as [Hc Hm]; rewrite ?Hc;
      step_cases; simpl; rewrite ?Eo, ?length_app; simpl; try done;
      try split; try done; lia.
  - destruct (V1.probes s !! k) as [p|] eqn:Hk; [|done].
    unfold V1.performCheck, V1.send_result, V1.wg_done, Channel.send.
    destruct p; simpl; step_cases; simpl; rewrite ?length_insert; done.
  - destruct (V1.stop s) eqn:Hs; [done|]. intros [= <-]. simpl.
    destruct (V1.orch s); try done; destruct Hm; done.
Qed.

(** Once the cancellation has fired (the context is cancelled in the second
    variant, a signal is buffered in the first), at most one more probe is
    launched, whatever the interleaving and however many checks are left:
    the loop tests for the cancellation only after a launch. *)
Theorem at_most_one_launch_after_cancel
  (transport : nat -> HttpOutcome) (numChecks : Z) (write_ok : bool) :
  (forall s sched s',
     V2.cancelled s = true ->
     exec (V2.step transport numChecks) s sched = Some s' ->
     (length (V2.probes s') <= length (V2.probes s) + 1)%nat) /\
  (forall s sched s',
     V1.stop s = true ->
     exec (V1.step transport numChecks write_ok) s sched = Some s' ->
     (length (V1.probes s') <= length (V1.probes s) + 1)%nat).
Proof.
  split.
  - intros s sched s' Hc He.
    assert (HW : winding_down_v2 (length (V2.probes s)) s').
    { eapply (exec_invariant (V2.step transport numChecks)
                (winding_down_v2 (length (V2.probes s))) (fun _ => True));
        [| | by apply Forall_forall | exact He].
      - intros s0 a s1 H0 _ Hs. eapply winding_down_step_v2; eauto.
      - split; [done|]. destruct (V2.orch s); lia. }
    destruct HW as [_ HW]. destruct (V2.orch s'); lia.
  - intros s sched s' Hc He.
    assert (HW : winding_down_v1 (length (V1.probes s)) s').
    { eapply (exec_invariant (V1.step transport numChecks write_ok)
                (winding_down_v1 (length (V1.probes s))) (fun _ => True));
        [| | by apply Forall_forall | exact He].
      - intros s0 a s1 H0 _ Hs. eapply winding_down_step_v1; eauto.
      - unfold winding_down_v1. destruct (V1.orch s); try lia; split; try done; lia. }
    unfold winding_down_v1 in HW. destruct (V1.orch s'); lia.
Qed.

Lemma at_most_one_launch_after_cancel_witness :
  exists s s',
    exec (V2.step answers_200 5) (V2.init 5 false) (repeat V2.AOrch 5 ++ [V2.ACancel])
    = Some s /\
    V2.cancelled s = true /\
    exec (V2.step answers_200 5) s (repeat V2.AOrch 4) = Some s' /\
    length (V2.probes s) = 1%nat /\ length (V2.probes s') = 2%nat /\
    (length (V2.probes s') <= length (V2.probes s) + 1)%nat.
Proof.
  let v := eval vm_compute in
    (exec (V2.step answers_200 5) (V2.init 5 false) (repeat V2.AOrch 5 ++ [V2.ACancel])) in
  lazymatch v with Some ?x => pose (s := x) end.
  let v := eval vm_compute in (exec (V2.step answers_200 5) s (repeat V2.AOrch 4)) in
  lazymatch v with Some ?x => pose (s' := x) end.
  assert (He' : exec (V2.step answers_200 5) s (repeat V2.AOrch 4) = Some s')
    by (vm_compute; reflexivity).
  exists s, s'. split; [vm_compute; reflexivity|]. split; [reflexivity|].
  split; [exact He'|]. split; [reflexivity|]. split; [reflexivity|].
  exact (proj1 (at_most_one_launch_after_cancel answers_200 5 true) s _ s' eq_refl He').
Defined.

(** *** The wait group *)

(** In every reachable state of either variant the counter of the wait
    group is the number of launched probes that have not yet run their
    deferred [wg.Done()], plus one between [wg.Add(1)] and the [go]
    statement.  So the counter is never negative, and [wg.Wait()] lets
    [runTests] pass only when every launched probe has run its
    [wg.Done()]. *)
Theorem wait_group_counts_live_probes
  (transport : nat -> HttpOutcome) (numChecks : Z) (write_ok : bool)
  (Hn : 0 <= numChecks) :
  (forall c0 sched s,
     exec (V2.step transport numChecks) (V2.init numChecks c0) sched = Some s ->
     V2.wg s = Z.of_nat (V2.live_probes s) + V2.go_pending (V2.orch s) /\
     0 <= V2.wg s /\
     (V2.wg s = 0 ->
      forall k p, V2.probes s !! k = Some p -> exists b, p = V2.PDone b)) /\
  (forall sig0 sched s,
     exec (V1.step transport numChecks write_ok) (V1.init numChecks sig0) sched = Some s ->
     V1.wg s = Z.of_nat (V1.live_probes s) + V1.go_pending (V1.orch s) /\
     0 <= V1.wg s /\
     (V1.wg s = 0 ->
      forall k p, V1.probes s !! k = Some p -> p = V1.PFatal \/ exists b, p = V1.PDone b)).
Proof.
  split.
  - intros c0 sched s He.
    pose proof (V2.reachable_inv_v2 _ _ _ _ _ Hn He) as HI.
    pose proof (V2.inv_wg _ _ _ HI) as Hw.
    assert (0 <= V2.go_pending (V2.orch s)) by (destruct (V2.orch s); simpl; lia).
    split; [exact Hw|]. split; [lia|].
    intros Hz k p Hk.
    assert (Hl : V2.live_probes s = 0%nat) by lia.
    pose proof (isum_zero _ _ _ _ _ Hl Hk) as Hp.
    pose proof (V2.inv_probe _ _ _ HI _ _ Hk) as Hok.
    destruct p; simpl in *; try done. eauto.
  - intros sig0 sched s He.
    pose proof (V1.reachable_inv_v1 _ _ _ _ _ _ Hn He) as HI.
    pose proof (V1.inv_wg _ _ _ _ HI) as Hw.
    assert (0 <= V1.go_pending (V1.orch s)) by (destruct (V1.orch s); simpl; lia).
    split; [exact Hw|]. split; [lia|].
    intros Hz k p Hk.
    assert (Hl : V1.live_probes s = 0%nat) by lia.
    pose proof (isum_zero _ _ _ _ _ Hl Hk) as Hp.
    destruct p; simpl in *; try done; eauto.
Qed.

Lemma wait_group_counts_live_probes_witness :
  0 <= 2 /\
  exists s,
    exec (V2.step answers_200 2) (V2.init 2 false)
      (repeat V2.AOrch 7 ++ repeat (V2.AProbe 0) 4) = Some s /\
    V2.orch s = V2.OGo 1 /\ V2.wg s = 1 /\ V2.live_probes s = 0%nat.
Proof.
  assert (Hn : 0 <= 2) by lia.
  split; [exact Hn|].
  let v := eval vm_compute in
    (exec (V2.step answers_200 2) (V2.init 2 false)
       (repeat V2.AOrch 7 ++ repeat (V2.AProbe 0) 4)) in
  lazymatch v with Some ?x => pose (s := x) end.
  assert (He : exec (V2.step answers_200 2) (V2.init 2 false)
                 (repeat V2.AOrch 7 ++ repeat (V2.AProbe 0) 4) = Some s)
    by (vm_compute; reflexivity).
  destruct (proj1 (wait_group_counts_live_probes answers_200 2 true Hn) false _ s He)
    as (Hw & _ & _).
  exists s. split; [exact He|]. split; [reflexivity|]. split; [|reflexivity].
  rewrite Hw. reflexivity.
Defined.

(** *** Panics of the first variant *)




(** *** A negative number of checks *)



(** *** Response bodies *)

(** What the first variant does with the body of a response: nothing. *)
Definition body_kept_v1 (transport : nat -> HttpOutcome) (k : nat) (p : V1.Probe) : Prop :=
  match p with
  | V1.PDefer b | V1.PDone b =>
      match b with
      | NoBody => transport k = TransportErr
      | BodyOpen => exists status, transport k = Response status
      | BodyClosed => False
      end
  | _ => True
  end.

Lemma body_kept_step_v1 transport numChecks write_ok s a s' :
  V1.Inv transport numChecks write_ok s ->
  (forall k p, V1.probes s !! k = Some p -> body_kept_v1 transport k p) ->
  V1.step transport numChecks write_ok s a = Some s' ->
  forall k p, V1.probes s' !! k = Some p -> body_kept_v1 transport k p.
Proof.
  intros HI Hb. unfold V1.step. destruct (V1.crashed s); [done|].
  destruct a as [|j|].
  - unfold V1.runTests, Channel.close, Channel.recv.
    destruct (V1.orch s); simpl; step_cases; simpl; try done.
    intros k p [?|[? [_ <-]%list_lookup_singleton_Some]]%lookup_app_Some; simpl; eauto.
  - destruct (V1.probes s !! j) as [q|] eqn:Hj; [|done].
    pose proof (V1.inv_probe _ _ _ _ HI _ _ Hj) as Hok.
    pose proof (Hb _ _ Hj) as Hq.
    unfold V1.performCheck, V1.send_result, V1.wg_done, Channel.send.
    destruct q; simpl in *; step_cases; simpl; try done;
      intros k p [(-> & <- & _)|(? & ?)]%list_lookup_insert_Some; simpl; eauto.
  - destruct (V1.stop s); [done|]. intros [= <-]. done.
Qed.

(** The second variant closes a body only on the branch of the [select]
    that found the context cancelled. *)
Definition closed_only_cancelled (s : V2.State) : Prop :=
  V2.cancelled s = false ->
  forall j p, V2.probes s !! j = Some p -> V2.no_discard p.

Lemma closed_only_cancelled_step transport numChecks s a s' :
  closed_only_cancelled s -> V2.step transport numChecks s a = Some s' ->
  closed_only_cancelled s'.
Proof.
  intros Hb. unfold V2.step, closed_only_cancelled in *.
  destruct (V2.crashed s); [done|].
  destruct a as [|j|].
  - unfold V2.runTests, V2.collectResults, Channel.close, Channel.recv.
    destruct (V2.orch s); simpl; step_cases; simpl; try done; intros Hc;
      try congruence; first [specialize (Hb eq_refl) | specialize (Hb Hc)]; try done.
    intros k p [?|[? [_ <-]%list_lookup_singleton_Some]]%lookup_app_Some; simpl; eauto.
  - destruct (V2.probes s !! j) as [q|] eqn:Hj; [|done].
    unfold V2.performCheck, V2.send_result, V2.wg_done, Channel.send.
    destruct q; simpl in *; step_cases; simpl; try done; intros Hc;
      try congruence; first [specialize (Hb eq_refl) | specialize (Hb Hc)]; try done;
      intros k p [(-> & <- & _)|(? & ?)]%list_lookup_insert_Some; simpl; eauto;
      apply (Hb _ _ Hj).
  - destruct (V2.cancelled s); [done|]. intros [= <-]. simpl. done.
Qed.

(** Neither variant closes the body of a response it reports.  In the first
    variant no response body is ever closed; in the second one a body is
    closed only by a probe that found the context cancelled, so while the
    context is not cancelled every finished probe that got a response has
    left its body open. *)
Theorem reported_response_body_stays_open
  (transport : nat -> HttpOutcome) (numChecks : Z) (write_ok : bool)
  (Hn : 0 <= numChecks) :
  (forall sig0 sched s k b,
     exec (V1.step transport numChecks write_ok) (V1.init numChecks sig0) sched = Some s ->
     V1.probes s !! k = Some (V1.PDone b) ->
     b <> BodyClosed /\
     (forall status, transport k = Response status -> b = BodyOpen)) /\
  (forall c0 sched s k b,
     exec (V2.step transport numChecks) (V2.init numChecks c0) sched = Some s ->
     V2.probes s !! k = Some (V2.PDone b) ->
     (b = BodyClosed -> V2.cancelled s = true) /\
     (forall status, transport k = Response status ->
      b = BodyOpen \/ (b = BodyClosed /\ V2.cancelled s = true))).
Proof.
  split.
  - intros sig0 sched s k b He Hk.
    assert (HB : V1.Inv transport numChecks write_ok s /\
                 forall j p, V1.probes s !! j = Some p -> body_kept_v1 transport j p).
    { eapply (exec_invariant (V1.step transport numChecks write_ok)
                (fun x => V1.Inv transport numChecks write_ok x /\
                          forall j p, V1.probes x !! j = Some p ->
                                      body_kept_v1 transport j p) (fun _ => True));
        [| | by apply Forall_forall | exact He].
      - intros s0 a s1 [H0 H1] _ Hs. split; [eapply V1.step_inv_v1; eauto|].
        eapply body_kept_step_v1; eauto.
      - split; [by apply V1.init_inv_v1|]. intros j p Hj. done. }
    destruct HB as [_ HB]. specialize (HB _ _ Hk). simpl in HB.
    destruct b; try done; split; try done; intros status Ht; congruence.
  - intros c0 sched s k b He Hk.
    pose proof (V2.reachable_inv_v2 _ _ _ _ _ Hn He) as HI.
    pose proof (V2.inv_probe _ _ _ HI _ _ Hk) as Hok. simpl in Hok.
    assert (HC : b = BodyClosed -> V2.cancelled s = true).
    { intros ->. destruct (V2.cancelled s) eqn:Hc; [done|].
      assert (HN : closed_only_cancelled s).
      { eapply (exec_invariant (V2.step transport numChecks) closed_only_cancelled
                  (fun _ => True));
          [| | by apply Forall_forall | exact He].
        - intros s0 a s1 H0 _ Hs. eapply closed_only_cancelled_step; eauto.
        - intros _ j p Hj. done. }
      specialize (HN Hc _ _ Hk). done. }
    split; [exact HC|].
    intros status Ht. destruct b; simpl in Hok; [congruence|by left|right; eauto].
Qed.

Lemma reported_response_body_stays_open_witness :
  0 <= 1 /\
  exists s,
    exec (V1.step answers_200 1 true) (V1.init 1 false) (full_run_v1 1) = Some s /\
    V1.probes s !! 0%nat = Some (V1.PDone BodyOpen).
Proof.
  assert (Hn : 0 <= 1) by lia.
  split; [exact Hn|].
  let v := eval vm_compute in
    (exec (V1.step answers_200 1 true) (V1.init 1 false) (full_run_v1 1)) in
  lazymatch v with Some ?x => pose (s := x) end.
  assert (He : exec (V1.step answers_200 1 true) (V1.init 1 false) (full_run_v1 1) = Some s)
    by (vm_compute; reflexivity).
  let v := eval vm_compute in (V1.probes s !! 0%nat) in
  lazymatch v with
  | Some (V1.PDone ?b) =>
      assert (Hk : V1.probes s !! 0%nat = Some (V1.PDone b)) by reflexivity;
      destruct (proj1 (reported_response_body_stays_open answers_200 1 true Hn)
                  false _ s 0%nat b He Hk) as [_ Hb]
  end.
  exists s. split; [exact He|].
  pose proof (Hb 200 eq_refl) as Hopen. exact Hk.
Defined.

(** *** The first variant never blocks forever *)

(** In the first variant too every run is finite and, as long as
    [runTests] has not returned and the process has not died of a panic,
    some goroutine can take a step, also on the signal path: a run ends
    with [runTests] returned or with the panic of C1, never in a deadlock. *)
Theorem first_variant_returns_or_panics
  (transport : nat -> HttpOutcome) (numChecks : Z) (write_ok : bool)
  (sig0 : bool) sched s
  (Hn : 0 <= numChecks)
  (He : exec (V1.step transport numChecks write_ok) (V1.init numChecks sig0) sched = Some s) :
  (length sched <= 10 * Z.to_nat numChecks + 8)%nat /\
  (V1.returned s = None -> V1.crashed s = false ->
   exists a, a <> V1.ASignal /\ is_Some (V1.step transport numChecks write_ok s a)).
Proof.
  split; [eapply V1.run_bounded_v1; eauto|].
  intros Hr Hc.
  pose proof (V1.reachable_inv_v1 _ _ _ _ _ _ Hn He) as HI.
  destruct (V1.orch s) eqn:Eo;
    try (apply V1.progress_v1; [exact HI|exact Hr|rewrite Eo; exact I]).
  - exists V1.AOrch. split; [done|]. unfold V1.step, V1.runTests. rewrite Hc, Eo.
    destruct (Channel.close (V1.ch s)); eauto.
  - pose proof (V1.inv_orch _ _ _ _ HI) as Ho. unfold V1.orch_ok in Ho.
    rewrite Eo in Ho. destruct Ho as [_ Hcl].
    pose proof (V1.inv_wg _ _ _ _ HI) as Hw. rewrite Eo in Hw. simpl in Hw.
    destruct (Z.eqb_spec (V1.wg s) 0) as [Hz|Hz].
    + exists V1.AOrch. split; [done|]. unfold V1.step, V1.runTests. rewrite Hc, Eo.
      destruct (Z.eqb_spec (V1.wg s) 0); [eauto|done].
    + destruct (isum_pos (fun _ => V1.live) 0 (V1.probes s)) as (j & p & Hj & Hp);
        [unfold V1.live_probes in Hw; lia|].
      exists (V1.AProbe j). split; [done|]. unfold V1.step. rewrite Hc, Hj.
      unfold V1.performCheck, V1.send_result, Channel.send. rewrite Hcl.
      destruct p; simpl in *; try lia; repeat case_match; eauto.
Qed.

Lemma first_variant_returns_or_panics_witness :
  0 <= 1 /\
  exists s a,
    exec (V1.step answers_200 1 true) (V1.init 1 false) signal_during_sleep = Some s /\
    V1.orch s = V1.OStopWait /\
    is_Some (V1.step answers_200 1 true s a).
Proof.
  assert (Hn : 0 <= 1) by lia.
  split; [exact Hn|].
  let v := eval vm_compute in
    (exec (V1.step answers_200 1 true) (V1.init 1 false) signal_during_sleep) in
  lazymatch v with Some ?x => pose (s := x) end.
  assert (He : exec (V1.step answers_200 1 true) (V1.init 1 false) signal_during_sleep
               = Some s) by (vm_compute; reflexivity).
  destruct (first_variant_returns_or_panics answers_200 1 true false _ s Hn He)
    as [_ Hp].
  destruct (Hp eq_refl eq_refl) as (a & _ & Ha).
  exists s, a. split; [exact He|]. split; [reflexivity|exact Ha].
Defined.

(** *** When the early close of the first variant is harmless *)

Definition finished_v1 (p : V1.Probe) : Prop :=
  match p with V1.PDefer _ | V1.PDone _ => True | _ => False end.

(** The signal path with every launched probe past its send. *)
Record QuietStop (transport : nat -> HttpOutcome) (numChecks : Z) (write_ok : bool)
    (s : V1.State) : Prop := {
  qs_inv : V1.Inv transport numChecks write_ok s;
  qs_crashed : V1.crashed s = false;
  qs_orch : match V1.orch s with
            | V1.OStopClose | V1.OStopWait | V1.OStopReturn => True
            | _ => False
            end;
  qs_probes : forall k p, V1.probes s !! k = Some p -> finished_v1 p
}.

Lemma quiet_stop_step transport numChecks write_ok s a s' :
  QuietStop transport numChecks write_ok s ->
  V1.step transport numChecks write_ok s a = Some s' ->
  QuietStop transport numChecks write_ok s'.
Proof.
  intros [HI Hc Ho Hp] Hs.
  split; [eapply V1.step_inv_v1; eauto| | |]; revert Hs;
    unfold V1.step; rewrite Hc;
    pose proof (V1.inv_orch _ _ _ _ HI) as Hok; unfold V1.orch_ok in Hok;
    pose proof (V1.inv_wg _ _ _ _ HI) as Hw; unfold V1.live_probes in Hw.
  all: destruct a as [|k|].
  all: try (destruct (V1.stop s); [done|]; intros [= <-]; done).
  all: try (unfold V1.runTests, Channel.close, Channel.recv;
            destruct (V1.orch s) eqn:Eo; try done; simpl; step_cases; simpl;
            rewrite ?Eo; try done; destruct Hok; congruence).
  all: destruct (V1.probes s !! k) as [p|] eqn:Hk; [|done].
  all: pose proof (Hp _ _ Hk) as Hf.
  all: pose proof (isum_lookup_le (fun _ => V1.live) 0 _ _ _ Hk) as Hl.
  all: assert (0 <= V1.go_pending (V1.orch s)) by (destruct (V1.orch s); simpl; lia).
  all: unfold V1.performCheck, V1.send_result, V1.wg_done, Channel.send.
  all: destruct p; simpl in *; try done; step_cases; simpl; try done; try lia.
  intros j q [(-> & <- & _)|(? & ?)]%list_lookup_insert_Some; simpl; eauto.
Qed.

Lemma send_on_closed_panics transport numChecks write_ok s k p :
  V1.crashed s = false -> Channel.closed (V1.ch s) = true ->
  V1.probes s !! k = Some p -> (p = V1.PErr \/ exists status, p = V1.PResp status) ->
  V1.step transport numChecks write_ok s (V1.AProbe k)
  = Some (V1.with_probe k V1.PPanic s).
Proof.
  intros Hc Hcl Hk Hp. unfold V1.step. rewrite Hc, Hk.
  unfold V1.performCheck, V1.send_result, Channel.send.
  destruct Hp as [->|[status ->]]; simpl; by rewrite Hcl.
Qed.

Lemma panic_then_abort transport numChecks write_ok s k :
  V1.crashed s = false -> V1.probes s !! k = Some V1.PPanic ->
  exists sched s',
    exec (V1.step transport numChecks write_ok) s sched = Some s' /\
    V1.crashed s' = true.
Proof.
  intros Hc Hk.
  assert (Hlt : (k < length (V1.probes s))%nat) by (eapply lookup_lt_Some; eauto).
  destruct (Z.ltb_spec (V1.wg s - 1) 0) as [Hneg|Hpos].
  - exists [V1.AProbe k], (V1.crash s). split; [|done]. simpl.
    unfold V1.step. rewrite Hc, Hk. simpl. unfold V1.wg_done.
    destruct (Z.ltb_spec (V1.wg s - 1) 0); [done|lia].
  - exists [V1.AProbe k; V1.AProbe k],
      (V1.crash (V1.with_probe k V1.PFatal (V1.with_wg (V1.wg s - 1) s))).
    split; [|done]. simpl.
    unfold V1.step at 1. rewrite Hc, Hk. simpl. unfold V1.wg_done.
    destruct (Z.ltb_spec (V1.wg s - 1) 0); [lia|].
    unfold V1.step. simpl. rewrite Hc, list_lookup_insert_eq by done. done.
Qed.

Lemma pending_send_panics transport numChecks write_ok s k p :
  V1.crashed s = false -> Channel.closed (V1.ch s) = true ->
  V1.probes s !! k = Some p -> V1.presend p = 1%nat ->
  exists sched s',
    exec (V1.step transport numChecks write_ok) s sched = Some s' /\
    V1.crashed s' = false /\ V1.probes s' !! k = Some V1.PPanic.
Proof.
  intros Hc Hcl Hk Hp.
  assert (Hlt : (k < length (V1.probes s))%nat) by (eapply lookup_lt_Some; eauto).
  assert (Hsend : forall x q,
             V1.crashed x = false -> Channel.closed (V1.ch x) = true ->
             V1.probes x !! k = Some q ->
             (q = V1.PErr \/ exists status, q = V1.PResp status) ->
             exists x',
               exec (V1.step transport numChecks write_ok) x [V1.AProbe k] = Some x' /\
               V1.crashed x' = false /\ V1.probes x' !! k = Some V1.PPanic).
  { intros x q Hcx Hclx Hkx Hq. exists (V1.with_probe k V1.PPanic x).
    simpl. rewrite (send_on_closed_panics _ _ _ _ k q) by done.
    split; [done|split; [done|]]. simpl. apply list_lookup_insert_eq.
    eapply lookup_lt_Some; eauto. }
  destruct p; simpl in Hp; try done.
  - assert (Hget : exists q,
               V1.step transport numChecks write_ok s (V1.AProbe k)
               = Some (V1.with_probe k q s) /\
               (q = V1.PErr \/ exists status, q = V1.PResp status)).
    { unfold V1.step. rewrite Hc, Hk. simpl.
      destruct (transport k) as [|status]; eauto. }
    destruct Hget as (q & Hstep & Hq).
    destruct (Hsend (V1.with_probe k q s) q) as (x' & Hx & Hcx & Hkx); try done.
    { simpl. by apply list_lookup_insert_eq. }
    exists [V1.AProbe k; V1.AProbe k], x'. split; [|done].
    change [V1.AProbe k; V1.AProbe k] with ([V1.AProbe k] ++ [V1.AProbe k]).
    rewrite exec_app. simpl. rewrite Hstep. exact Hx.
  - destruct (Hsend s V1.PErr) as (x' & Hx & Hcx & Hkx); eauto.
  - destruct (Hsend s (V1.PResp status)) as (x' & Hx & Hcx & Hkx); eauto.
Qed.

(** On the signal path of the first variant the early [close(results)] is
    harmless exactly when no launched probe still has its send ahead: if
    every launched probe has already sent when the channel is about to be
    closed, no continuation panics and [runTests] returns without printing
    or saving anything; if some launched probe has not yet sent, there is a
    continuation in which the process dies of that probe's panic. *)
Theorem early_close_safe_iff_no_probe_pending
  (transport : nat -> HttpOutcome) (numChecks : Z) (write_ok : bool)
  (sig0 : bool) sched s
  (Hn : 0 <= numChecks)
  (He : exec (V1.step transport numChecks write_ok) (V1.init numChecks sig0) sched = Some s)
  (Ho : V1.orch s = V1.OStopClose) :
  (isum (fun _ => V1.presend) 0 (V1.probes s) = 0%nat ->
   forall sched' s',
     exec (V1.step transport numChecks write_ok) s sched' = Some s' ->
     V1.crashed s' = false /\
     (forall x, V1.returned s' = Some x -> x = None)) /\
  (forall k p,
     V1.probes s !! k = Some p -> V1.presend p = 1%nat ->
     exists sched' s',
       exec (V1.step transport numChecks write_ok) s sched' = Some s' /\
       V1.crashed s' = true).
Proof.
  pose proof (V1.reachable_inv_v1 _ _ _ _ _ _ Hn He) as HI.
  assert (HC : V1.Clean transport s)
    by (apply (V1.inv_clean _ _ _ _ HI); rewrite Ho; done).
  pose proof (V1.clean_crashed _ _ HC) as Hc.
  pose proof (V1.inv_orch _ _ _ _ HI) as Hok. unfold V1.orch_ok in Hok.
  rewrite Ho in Hok. destruct Hok as [_ Hopen].
  split.
  - intros Hz sched' s' He'.
    assert (HQ : QuietStop transport numChecks write_ok s').
    { eapply (exec_invariant (V1.step transport numChecks write_ok)
                (QuietStop transport numChecks write_ok) (fun _ => True));
        [| | by apply Forall_forall | exact He'].
      - intros s0 a s1 H0 _ Hs. eapply quiet_stop_step; eauto.
      - split; [done|done|by rewrite Ho|].
        intros k p Hk. pose proof (isum_zero _ _ _ _ _ Hz Hk) as Hp.
        pose proof (V1.clean_probes _ _ HC _ _ Hk) as Hnp.
        destruct p; simpl in *; done. }
    destruct HQ as [_ Hc' Ho' _]. split; [done|].
    intros x. unfold V1.returned. destruct (V1.orch s'); try done. by intros [= <-].
  - intros k p Hk Hp.
    assert (Hlt : (k < length (V1.probes s))%nat) by (eapply lookup_lt_Some; eauto).
    pose (s1 := V1.with_orch V1.OStopWait
                  (V1.with_ch {| Channel.buf := Channel.buf (V1.ch s);
                                 Channel.cap := Channel.cap (V1.ch s);
                                 Channel.closed := true |} s)).
    assert (H1 : V1.step transport numChecks write_ok s V1.AOrch = Some s1).
    { unfold V1.step, V1.runTests, Channel.close. by rewrite Hc, Ho, Hopen. }
    assert (Hpanic : exists pre s2,
               exec (V1.step transport numChecks write_ok) s1 pre = Some s2 /\
               V1.crashed s2 = false /\ V1.probes s2 !! k = Some V1.PPanic).
    { apply (pending_send_panics transport numChecks write_ok s1 k p); done. }
    destruct Hpanic as (pre & s2 & Hpre & Hc2 & Hk2).
    destruct (panic_then_abort transport numChecks write_ok s2 k Hc2 Hk2)
      as (post & s3 & Hpost & Hc3).
    exists (V1.AOrch :: pre ++ post), s3. split; [|done].
    simpl. rewrite H1, exec_app, Hpre. exact Hpost.
Qed.

(** One check; the signal arrives while the probe is inside [http.Get], and
    the run stops just before [close(results)]. *)
Definition signal_probe_pending : list V1.Action :=
  [V1.AOrch; V1.AOrch; V1.AOrch; V1.ASignal; V1.AOrch; V1.AOrch].

(** One check; the probe has sent its result before the signal arrives. *)
Definition signal_probe_sent : list V1.Action :=
  [V1.AOrch; V1.AOrch; V1.AOrch; V1.AProbe 0; V1.AProbe 0; V1.ASignal;
   V1.AOrch; V1.AOrch].

Lemma early_close_safe_iff_no_probe_pending_witness :
  0 <= 1 /\
  (exists s sched' s',
     exec (V1.step answers_200 1 true) (V1.init 1 false) signal_probe_pending = Some s /\
     V1.orch s = V1.OStopClose /\
     V1.probes s !! 0%nat = Some V1.PGet /\
     exec (V1.step answers_200 1 true) s sched' = Some s' /\
     V1.crashed s' = true) /\
  (exists s,
     exec (V1.step answers_200 1 true) (V1.init 1 false) signal_probe_sent = Some s /\
     V1.orch s = V1.OStopClose /\
     isum (fun _ => V1.presend) 0 (V1.probes s) = 0%nat /\
     forall sched' s',
       exec (V1.step answers_200 1 true) s sched' = Some s' ->
       V1.crashed s' = false /\ forall x, V1.returned s' = Some x -> x = None).
Proof.
  assert (Hn : 0 <= 1) by lia.
  split; [exact Hn|]. split.
  - let v := eval vm_compute in
      (exec (V1.step answers_200 1 true) (V1.init 1 false) signal_probe_pending) in
    lazymatch v with Some ?x => pose (s := x) end.
    assert (He : exec (V1.step answers_200 1 true) (V1.init 1 false) signal_probe_pending
                 = Some s) by (vm_compute; reflexivity).
    destruct (early_close_safe_iff_no_probe_pending
                answers_200 1 true false _ s Hn He eq_refl) as [_ Hp].
    destruct (Hp 0%nat V1.PGet eq_refl eq_refl) as (sched' & s' & He' & Hc').
    exists s, sched', s'. repeat split; assumption.
  - let v := eval vm_compute in
      (exec (V1.step answers_200 1 true) (V1.init 1 false) signal_probe_sent) in
    lazymatch v with Some ?x => pose (s := x) end.
    assert (He : exec (V1.step answers_200 1 true) (V1.init 1 false) signal_probe_sent
                 = Some s) by (vm_compute; reflexivity).
    destruct (early_close_safe_iff_no_probe_pending
                answers_200 1 true false _ s Hn He eq_refl) as [Hq _].
    exists s. split; [exact He|]. split; [reflexivity|]. split; [reflexivity|].
    exact (Hq eq_refl).
Defined.

(** *** The summary line of an uninterrupted run *)

(** How many of the first [n] probes get a response with status 200. *)
Definition successes (transport : nat -> HttpOutcome) (n : nat) : nat :=
  count_true (map (outcome transport) (seq 0 n)).

(** The summary line of a run that is not interrupted is fixed by what the
    network answers: whatever the interleaving of the goroutines, the
    second variant (without cancellation) and the first variant (whenever
    it reports) print the percentage of [float64(j) / float64(numChecks) * 100]
    where [j] is the number of probes, of the [numChecks] launched, that got
    a response with status 200. *)
Theorem summary_line_fixed_by_answers
  (transport : nat -> HttpOutcome) (numChecks : Z) (write_ok : bool)
  (Hn : 0 <= numChecks) :
  (forall sched s r,
     Forall (fun a => a <> V2.ACancel) sched ->
     exec (V2.step transport numChecks) (V2.init numChecks false) sched = Some s ->
     V2.returned s = Some r ->
     stdout (V2.main write_ok r)
     = Fmt.summary_line
         (Fmt.successfulPercentage
            (Z.of_nat (successes transport (Z.to_nat numChecks))) numChecks)) /\
  (forall sig0 sched s r out,
     exec (V1.step transport numChecks write_ok) (V1.init numChecks sig0) sched = Some s ->
     V1.returned s = Some (Some (r, out)) ->
     stdout out
     = Fmt.summary_line
         (Fmt.successfulPercentage
            (Z.of_nat (successes transport (Z.to_nat numChecks))) numChecks)).
Proof.
  split.
  - intros sched s r Hok He Hr.
    pose proof (V2.reachable_inv_v2 _ _ _ _ _ Hn He) as HI.
    assert (HN : V2.NoCancel s).
    { eapply (exec_invariant (V2.step transport numChecks) V2.NoCancel);
        [| apply V2.nc_init | exact Hok | exact He].
      intros s0 a s1 H0 Ha Hs. eapply V2.nc_step; eauto. }
    destruct (V2.returned_all _ _ _ _ HI HN Hr) as (Hl & Hc & Hp).
    unfold V2.main, successes. simpl.
    rewrite successfulCount_count, Hc, isum_index, Hp, count_outcomes, Hl.
    by rewrite Z2Nat.id.
  - intros sig0 sched s r out He Hr.
    pose proof (V1.reachable_inv_v1 _ _ _ _ _ _ Hn He) as HI.
    destruct (V1.done_all _ _ _ _ _ _ HI Hr) as (Hl & Hc & Hp & ->).
    unfold V1.report, successes. simpl.
    rewrite successfulCount_count, Hc, isum_index, Hp, count_outcomes. done.
Qed.

Lemma summary_line_fixed_by_answers_witness :
  0 <= 2 /\
  exists s r,
    exec (V2.step alternating 2) (V2.init 2 false)
      (second_sends_first ++ repeat V2.AOrch 4) = Some s /\
    V2.returned s = Some r /\
    stdout (V2.main true r)
    = Fmt.summary_line (Fmt.successfulPercentage 1 2).
Proof.
  assert (Hn : 0 <= 2) by lia.
  split; [exact Hn|].
  destruct (summary_line_fixed_by_answers alternating 2 true Hn) as [H _].
  let v := eval vm_compute in
    (exec (V2.step alternating 2) (V2.init 2 false)
       (second_sends_first ++ repeat V2.AOrch 4)) in
  lazymatch v with Some ?x => pose (s := x) end.
  let v := eval vm_compute in (V2.returned s) in
  lazymatch v with Some ?x => pose (r := x) end.
  assert (He : exec (V2.step alternating 2) (V2.init 2 false)
                 (second_sends_first ++ repeat V2.AOrch 4) = Some s)
    by (vm_compute; reflexivity).
  assert (Hok : Forall (fun a => a <> V2.ACancel) (second_sends_first ++ repeat V2.AOrch 4))
    by (vm_compute; sched_ok).
  exists s, r. split; [exact He|]. split; [reflexivity|].
  exact (H _ s r Hok He eq_refl).
Defined.
